(** * gsGridIterator: iteration over the points of a tensor-product grid

    A shallow embedding of [src/gsTensor/gsGridIterator.h] (G+Smo) and the
    properties of its three iterator classes:

    - [IntGrid]: [gsGridIterator<Z,mode,d,true>], the integer lattice
      iterator (modes CUBE, BDR and VERTEX);
    - [UniformGrid]: [gsGridIterator<T,mode,d,false>], uniformly spaced
      samples, driven by an integer lattice iterator;
    - [CwiseGrid]: [gsGridIterator<T,3,d,false>], points assembled from
      coordinate-wise value arrays, driven by a CUBE lattice iterator.

    Conventions of the embedding.  A [gsVector<Z,d>] is a [list Z]; the
    integer type [Z] of the template is read as the mathematical integers
    (the source computes on a signed type, whose overflow is undefined).
    Element access [v[i]] is the total lookup [v !!! i] and an assignment
    [v[i] = x] is [<[i:=x]> v]; an access out of range, undefined in the
    source, reads a default value and writes nothing, and no property below
    depends on one.  The loops of the source are recursive functions on the
    number of remaining iterations, carrying the loop index.  The template
    parameters [mode] and [d] are ordinary arguments; [d = -1] is the
    dynamic dimension of the source. *)

From Stdlib Require Import QArith.
From stdpp Require Import base numbers list option.

Local Open Scope Z_scope.

(** ** The modes *)

Inductive gsGridIteratorMode := CUBE | BDR | VERTEX | CWISE.

Definition mode_value (m : gsGridIteratorMode) : Z :=
  match m with CUBE => 0 | BDR => 1 | VERTEX => 2 | CWISE => 3 end.

(** ** The integer lattice iterator *)

Module IntGrid.

Abbreviation point := (list Z).

Record gsGridIterator := Build {
  m_low : point;   (* iteration lower limit *)
  m_upp : point;   (* iteration upper limit *)
  m_cur : point;   (* current point *)
  m_dim : Z        (* number of rows of the points; 0 when done *)
}.

Definition set_cur (it : gsGridIterator) (p : point) : gsGridIterator :=
  {| m_low := m_low it; m_upp := m_upp it; m_cur := p; m_dim := m_dim it |}.

Definition set_dim (it : gsGridIterator) (n : Z) : gsGridIterator :=
  {| m_low := m_low it; m_upp := m_upp it; m_cur := m_cur it; m_dim := n |}.

(** [reset(a, b, open)].  [None] is the failure of
    [GISMO_ASSERT(a.rows() == b.rows())]. *)
Definition reset (a b : point) (open : bool) : option gsGridIterator :=
  if bool_decide (length a = length b) then
    let upp := if open then (λ x, x - 1) <$> b else b in
    Some {| m_low := a; m_upp := upp; m_cur := a;
            m_dim := if bool_decide (Forall2 Z.le a upp)
                     then Z.of_nat (length a) else 0 |}
  else None.

(** The constructors [gsGridIterator(a, b, open)] and
    [gsGridIterator(b, open)]. *)
Definition make (a b : point) (open : bool) : option gsGridIterator :=
  reset a b open.

Definition make_upper (b : point) (open : bool) : option gsGridIterator :=
  reset (replicate (length b) 0) b open.

(** [reset()] *)
Definition reset0 (it : gsGridIterator) : option gsGridIterator :=
  reset (m_low it) (m_upp it) false.

(** [operator bool] *)
Definition hasNext (it : gsGridIterator) : bool :=
  bool_decide (0 ≠ m_dim it).

(** The loop bound [(d==-1 ? m_dim : d)]. *)
Definition loop_bound (d : Z) (it : gsGridIterator) : nat :=
  Z.to_nat (if bool_decide (d = -1) then m_dim it else d).

(** The loop of [case 0: case 2:] of [operator++], entered at index [i]
    with [k] iterations to go. *)
Fixpoint inc_cube_loop (mode : gsGridIteratorMode) (k i : nat)
    (it : gsGridIterator) : gsGridIterator :=
  match k with
  | O => set_dim it 0
  | S k' =>
      if bool_decide (m_cur it !!! i ≠ m_upp it !!! i) then
        if bool_decide (0 = mode_value mode)
        then set_cur it (<[i := m_cur it !!! i + 1]> (m_cur it))
        else set_cur it (<[i := m_upp it !!! i]> (m_cur it))
      else
        inc_cube_loop mode k' (S i)
          (set_cur it (<[i := m_low it !!! i]> (m_cur it)))
  end.

(** [for (int j = c; j != n; ++j) if (cur[j]==low[j] || cur[j]==upp[j]) ++c;]
    entered at index [j] with [k] iterations to go; returns [c]. *)
Fixpoint count_bound_loop (k j : nat) (it : gsGridIterator) (c : Z) : Z :=
  match k with
  | O => c
  | S k' =>
      count_bound_loop k' (S j) it
        (if bool_decide (m_cur it !!! j = m_low it !!! j) ||
            bool_decide (m_cur it !!! j = m_upp it !!! j)
         then c + 1 else c)
  end.

(** [for (int k = i-1; k != -1; --k) m_cur[k] = m_low[k];] *)
Fixpoint reset_below (i : nat) (low cur : point) : point :=
  match i with
  | O => cur
  | S k => reset_below k low (<[k := low !!! k]> cur)
  end.

(** The loop of [case 1:] of [operator++]. *)
Fixpoint inc_bdr_loop (k i : nat) (it : gsGridIterator) : gsGridIterator :=
  match k with
  | O => set_dim it 0
  | S k' =>
      if bool_decide (m_cur it !!! i ≠ m_upp it !!! i) then
        let cur1 :=
          if bool_decide (m_cur it !!! i = m_low it !!! i) &&
             (bool_decide (Z.of_nat i + 1 ≠ m_dim it) ||
              bool_decide (m_dim it = 1))
          then
            let c := count_bound_loop k' (S i) it (Z.of_nat i + 1) in
            if bool_decide (c = 1)
            then <[i := m_upp it !!! i]> (m_cur it)
            else <[i := m_cur it !!! i + 1]> (m_cur it)
          else <[i := m_cur it !!! i + 1]> (m_cur it) in
        set_cur it (reset_below i (m_low it) cur1)
      else inc_bdr_loop k' (S i) it
  end.

(** [operator++] *)
Definition inc (mode : gsGridIteratorMode) (d : Z)
    (it : gsGridIterator) : gsGridIterator :=
  match mode with
  | CUBE | VERTEX => inc_cube_loop mode (loop_bound d it) 0 it
  | BDR => inc_bdr_loop (loop_bound d it) 0 it
  | CWISE => set_dim it 0
  end.

(** [isFloor(i)], [isCeil(i)], [isBoundary()] *)
Definition isFloor (it : gsGridIterator) (i : nat) : bool :=
  bool_decide (m_cur it !!! i = m_low it !!! i).

Definition isCeil (mode : gsGridIteratorMode) (it : gsGridIterator)
    (i : nat) : bool :=
  if bool_decide (mode_value mode ≠ 0)
  then bool_decide (m_cur it !!! i = m_upp it !!! i)
  else bool_decide (m_cur it !!! i + 1 = m_upp it !!! i).

Definition any_eq (a b : point) : bool :=
  existsb (λ xy, bool_decide (xy.1 = xy.2)) (zip a b).

Definition isBoundary (it : gsGridIterator) : bool :=
  any_eq (m_cur it) (m_low it) || any_eq (m_cur it) (m_upp it).

(** [prod()] of an Eigen array; 1 on the empty array. *)
Definition prod (v : point) : Z := foldr Z.mul 1 v.

(** [numPointsCwise()]: [(m_upp - m_low).array() + 1] *)
Definition numPointsCwise (it : gsGridIterator) : point :=
  zip_with (λ u l, u - l + 1) (m_upp it) (m_low it).

(** [index_t], the index type of the library, is declared outside these
    files; it is a signed [int] of 32 bits in the default configuration,
    and the coordinate type of the lattice iterators that the sampling
    iterators wrap. *)
Definition index_bits : Z := 32.

Definition index_max : Z := 2 ^ (index_bits - 1) - 1.

(** The value of an integer expression in [index_t]: the two's complement
    representative of its mathematical value. *)
Definition wrap (z : Z) : Z :=
  (z + 2 ^ (index_bits - 1)) mod 2 ^ index_bits - 2 ^ (index_bits - 1).

(** [numPoints()]; [None] is [GISMO_ERROR].  The products of the modes 0
    and 1 are computed in the coordinate type and returned as [index_t].
    The shift of mode 2 is an [int] shift, which the language defines for
    fewer than 31 rows only; it is kept as its mathematical value. *)
Definition numPoints (mode : gsGridIteratorMode)
    (it : gsGridIterator) : option Z :=
  match mode with
  | CUBE =>
      Some (wrap (prod (zip_with (λ u l, u - l + 1) (m_upp it) (m_low it))))
  | BDR =>
      Some (wrap (prod (zip_with (λ u l, u - l + 1) (m_upp it) (m_low it))
                  - prod (zip_with (λ u l, u - l - 1) (m_upp it) (m_low it))))
  | VERTEX => Some (Z.shiftl 1 (Z.of_nat (length (m_low it))))
  | CWISE => None
  end.



(** The traversal [for (; it; ++it)] that emits the current point in its
    body, cut off after [fuel] points; returns the emitted points and the iterator it stopped at. *)
Fixpoint run (mode : gsGridIteratorMode) (d : Z) (fuel : nat)
    (it : gsGridIterator) : list point * gsGridIterator :=
  match fuel with
  | O => ([], it)
  | S f =>
      if hasNext it then
        let r := run mode d f (inc mode d it) in (m_cur it :: r.1, r.2)
      else ([], it)
  end.

(** The number of lattice points of the stored box bounds the number of
    steps of every mode. *)
Definition box_size (it : gsGridIterator) : nat :=
  Z.to_nat (prod (numPointsCwise it)).

(** The full traversal: the emitted points, and the iterator left behind. *)
Definition traverse (mode : gsGridIteratorMode) (d : Z)
    (it : gsGridIterator) : list point :=
  (run mode d (box_size it) it).1.

Definition exhaust (mode : gsGridIteratorMode) (d : Z)
    (it : gsGridIterator) : gsGridIterator :=
  (run mode d (box_size it) it).2.

(** [operator*], [lower()] and [upper()] *)
Definition deref (it : gsGridIterator) : point := m_cur it.

Definition lower (it : gsGridIterator) : point := m_low it.

Definition upper (it : gsGridIterator) : point := m_upp it.

End IntGrid.

(** ** Scalars of the sampling iterators

    The numeric template type [T] with the operations the iterators use.
    The source instantiates it with a floating-point type or with exact
    rationals; the embedding keeps it abstract, so that a statement about
    which expression is stored holds for every instance. *)

Class Scalar (T : Type) := {
  scalar_zero : T;      (* a value of [T]: the default of a read out of range *)
  scalar_add : T → T → T;
  scalar_sub : T → T → T;
  scalar_mul : T → T → T;
  scalar_div : T → T → T;
  scalar_cast : Z → T   (* [cast<T>()] of an index *)
}.

#[export] Instance scalar_inhabited `{Scalar T} : Inhabited T :=
  populate scalar_zero.

(** Exact rationals, as with the multi-precision instance of the library. *)
#[export] Instance Q_scalar : Scalar Q := {
  scalar_zero := inject_Z 0;
  scalar_add := Qplus;
  scalar_sub := Qminus;
  scalar_mul := Qmult;
  scalar_div := Qdiv;
  scalar_cast := inject_Z
}.

(** ** The uniform sample iterator *)

Module UniformGrid.
Section Defs.
Context {T : Type} `{Scalar T}.

Record gsGridIterator := Build {
  m_low : list T;                 (* lower limit *)
  m_upp : list T;                 (* upper limit *)
  m_step : list T;                (* step size *)
  m_iter : IntGrid.gsGridIterator; (* underlying integer lattice iterator *)
  m_cur : list T                  (* current point *)
}.

(** [reset(a, b)] *)
Definition reset (u : gsGridIterator) (a b : list T) : option gsGridIterator :=
  it ← IntGrid.reset0 (m_iter u);
  Some {| m_low := a; m_upp := b;
          m_step := zip_with scalar_div (zip_with scalar_sub b a)
                      ((λ n, scalar_cast (Z.max (n - 1) 1)) <$>
                         IntGrid.numPointsCwise (m_iter u));
          m_iter := it; m_cur := a |}.

(** The constructor [gsGridIterator(a, b, np)]: [m_iter(np, 1)], then
    [reset(a, b)] on the default-constructed members. *)
Definition make (a b : list T) (np : IntGrid.point) : option gsGridIterator :=
  it ← IntGrid.make_upper np true;
  reset {| m_low := []; m_upp := []; m_step := []; m_iter := it; m_cur := [] |}
        a b.

(** [reset()] *)
Definition reset0 (u : gsGridIterator) : option gsGridIterator :=
  it ← IntGrid.reset0 (m_iter u);
  Some {| m_low := m_low u; m_upp := m_upp u; m_step := m_step u;
          m_iter := it; m_cur := m_low u |}.

(** [operator bool] *)
Definition hasNext (u : gsGridIterator) : bool := IntGrid.hasNext (m_iter u).

(** [tensorIndex()] *)
Definition tensorIndex (u : gsGridIterator) : IntGrid.point :=
  IntGrid.m_cur (m_iter u).

(** The value that [operator++] stores in the [i]-th coordinate. *)
Definition coordinate (mode : gsGridIteratorMode) (u : gsGridIterator)
    (i : nat) : T :=
  if IntGrid.isFloor (m_iter u) i then m_low u !!! i
  else if IntGrid.isCeil mode (m_iter u) i then m_upp u !!! i
  else scalar_add (m_low u !!! i)
         (scalar_mul (scalar_cast (IntGrid.m_cur (m_iter u) !!! i))
                     (m_step u !!! i)).

(** The coordinate loop of [operator++], entered at index [i] with [k]
    iterations to go, on the current point [cur]. *)
Fixpoint sample_loop (mode : gsGridIteratorMode) (k i : nat)
    (u : gsGridIterator) (cur : list T) : list T :=
  match k with
  | O => cur
  | S k' => sample_loop mode k' (S i) u (<[i := coordinate mode u i]> cur)
  end.

(** [operator++] *)
Definition inc (mode : gsGridIteratorMode) (d : Z)
    (u : gsGridIterator) : gsGridIterator :=
  let u1 := {| m_low := m_low u; m_upp := m_upp u; m_step := m_step u;
               m_iter := IntGrid.inc mode d (m_iter u); m_cur := m_cur u |} in
  if IntGrid.hasNext (m_iter u1) then
    {| m_low := m_low u1; m_upp := m_upp u1; m_step := m_step u1;
       m_iter := m_iter u1;
       m_cur := sample_loop mode
                  (if bool_decide (d = -1) then length (m_low u1) else Z.to_nat d)
                  0 u1 (m_cur u1) |}
  else u1.

(** The traversal, as for the lattice iterator; it emits the current
    point together with its tensor index. *)
Fixpoint run (mode : gsGridIteratorMode) (d : Z) (fuel : nat)
    (u : gsGridIterator) : list (IntGrid.point * list T) * gsGridIterator :=
  match fuel with
  | O => ([], u)
  | S f =>
      if hasNext u then
        let r := run mode d f (inc mode d u) in
        ((tensorIndex u, m_cur u) :: r.1, r.2)
      else ([], u)
  end.

Definition traverse_indexed (mode : gsGridIteratorMode) (d : Z)
    (u : gsGridIterator) : list (IntGrid.point * list T) :=
  (run mode d (IntGrid.box_size (m_iter u)) u).1.

Definition traverse (mode : gsGridIteratorMode) (d : Z)
    (u : gsGridIterator) : list (list T) :=
  (traverse_indexed mode d u).*2.

Definition exhaust (mode : gsGridIteratorMode) (d : Z)
    (u : gsGridIterator) : gsGridIterator :=
  (run mode d (IntGrid.box_size (m_iter u)) u).2.

(** [numPoints()], [numPointsCwise()] and [step()] *)
Definition numPoints (mode : gsGridIteratorMode)
    (u : gsGridIterator) : option Z :=
  IntGrid.numPoints mode (m_iter u).

Definition numPointsCwise (u : gsGridIterator) : IntGrid.point :=
  IntGrid.numPointsCwise (m_iter u).

Definition step (u : gsGridIterator) : list T := m_step u.

End Defs.
Arguments gsGridIterator T : clear implicits.
End UniformGrid.

(** ** The coordinate-wise iterator *)

Module CwiseGrid.
Section Defs.
Context {T : Type} `{Inhabited T}.

(** A [gsMatrix<T>]: its shape and its coefficients in storage order. *)
Record gsMatrix := Matrix { rows : Z; cols : Z; coeffs : list T }.

#[global] Instance gsMatrix_inhabited : Inhabited gsMatrix :=
  populate (Matrix 0 0 []).

(** [at(i)]: the [i]-th coefficient in storage order. *)
Definition at_ (m : gsMatrix) (i : Z) : T := coeffs m !!! Z.to_nat i.

Definition set_at (m : gsMatrix) (i : nat) (x : T) : gsMatrix :=
  {| rows := rows m; cols := cols m; coeffs := <[i := x]> (coeffs m) |}.

Record gsGridIterator := Build {
  m_cwise : list gsMatrix;          (* coordinate-wise values *)
  m_iter : IntGrid.gsGridIterator;  (* underlying integer lattice iterator *)
  m_cur : gsMatrix                  (* current point *)
}.

(** The value that [update()] stores in the [i]-th coefficient. *)
Definition coordinate (c : gsGridIterator) (i : nat) : T :=
  at_ (m_cwise c !!! i) (IntGrid.m_cur (m_iter c) !!! i).

(** The loop of [update()], entered at index [i] with [k] iterations to go. *)
Fixpoint update_loop (k i : nat) (c : gsGridIterator)
    (cur : gsMatrix) : gsMatrix :=
  match k with
  | O => cur
  | S k' => update_loop k' (S i) c (set_at cur i (coordinate c i))
  end.

(** [update()]: the loop runs over [m_cur.rows()]. *)
Definition update (c : gsGridIterator) : gsGridIterator :=
  {| m_cwise := m_cwise c; m_iter := m_iter c;
     m_cur := update_loop (Z.to_nat (rows (m_cur c))) 0 c (m_cur c) |}.

(** The constructor.  [resize] leaves the coefficients of [m_cur]
    indeterminate: [uninit] is the content of the storage it allocates.
    [None] is a failed [GISMO_ASSERT], or [front()] of an empty
    container. *)
Definition make (cwise : list gsMatrix) (uninit : nat → T)
    : option gsGridIterator :=
  if forallb (λ m, bool_decide (cols m = 1) || bool_decide (rows m = 1)) cwise
  then
    match cwise with
    | [] => None
    | front :: _ =>
        it ← IntGrid.make_upper ((λ m, rows m - 1) <$> cwise) false;
        let n := Z.of_nat (length cwise) in
        let store := uninit <$> seq 0 (length cwise) in
        Some (update
          {| m_cwise := cwise; m_iter := it;
             m_cur := if bool_decide (1 = rows front)
                      then Matrix n 1 store else Matrix 1 n store |})
    end
  else None.

(** [reset()] *)
Definition reset0 (c : gsGridIterator) : option gsGridIterator :=
  it ← IntGrid.reset0 (m_iter c);
  Some (update {| m_cwise := m_cwise c; m_iter := it; m_cur := m_cur c |}).

(** [operator bool] *)
Definition hasNext (c : gsGridIterator) : bool := IntGrid.hasNext (m_iter c).

(** [operator++] *)
Definition inc (d : Z) (c : gsGridIterator) : gsGridIterator :=
  let c1 := {| m_cwise := m_cwise c; m_iter := IntGrid.inc CUBE d (m_iter c);
               m_cur := m_cur c |} in
  if IntGrid.hasNext (m_iter c1) then update c1 else c1.

(** [numPointsCwise()] and [tensorIndex()] *)
Definition numPointsCwise (c : gsGridIterator) : IntGrid.point :=
  IntGrid.numPointsCwise (m_iter c).

Definition tensorIndex (c : gsGridIterator) : IntGrid.point :=
  IntGrid.m_cur (m_iter c).

(** The traversal; it emits the current point together with its tensor
    index. *)
Fixpoint run (d : Z) (fuel : nat) (c : gsGridIterator)
    : list (IntGrid.point * gsMatrix) * gsGridIterator :=
  match fuel with
  | O => ([], c)
  | S f =>
      if hasNext c then
        let r := run d f (inc d c) in ((tensorIndex c, m_cur c) :: r.1, r.2)
      else ([], c)
  end.

Definition traverse_indexed (d : Z) (c : gsGridIterator)
    : list (IntGrid.point * gsMatrix) :=
  (run d (IntGrid.box_size (m_iter c)) c).1.

Definition traverse (d : Z) (c : gsGridIterator) : list gsMatrix :=
  (traverse_indexed d c).*2.

Definition exhaust (d : Z) (c : gsGridIterator) : gsGridIterator :=
  (run d (IntGrid.box_size (m_iter c)) c).2.

(** [numPoints()] *)
Definition numPoints (c : gsGridIterator) : option Z :=
  IntGrid.numPoints CUBE (m_iter c).

End Defs.
Arguments gsMatrix T : clear implicits.
Arguments gsGridIterator T : clear implicits.
End CwiseGrid.

(** ** Vocabulary of the statements *)

Import IntGrid.

(** The template dimension [d] is dynamic or the number of rows. *)
Definition dim_ok (d : Z) (n : nat) : Prop := d = -1 ∨ d = Z.of_nat n.

(** [p] is a lattice point of the box [[low, upp]]. *)
Definition in_box (p low upp : point) : Prop :=
  Forall2 Z.le low p ∧ Forall2 Z.le p upp.

(** Some coordinate of [p] equals its lower or its upper bound. *)
Definition on_boundary (p low upp : point) : Prop :=
  ∃ i c, p !! i = Some c ∧ (low !! i = Some c ∨ upp !! i = Some c).

(** Every coordinate of [p] equals its lower or its upper bound. *)
Definition is_vertex (p low upp : point) : Prop :=
  ∀ i c, p !! i = Some c → low !! i = Some c ∨ upp !! i = Some c.



(** The iterator is at a point of its box and has not finished. *)
Definition running (d : Z) (it : gsGridIterator) : Prop :=
  dim_ok d (length (m_low it)) ∧
  m_dim it = Z.of_nat (length (m_low it)) ∧ m_dim it ≠ 0 ∧
  in_box (m_cur it) (m_low it) (m_upp it).

(** ** The increments, by recursion on the coordinates

    One step of each mode as a function on the three coordinate lists; it
    returns the new point and whether the traversal is over.  The loops of
    [operator++] are shown below to compute these. *)

Fixpoint cube_step (mode : gsGridIteratorMode) (cur low upp : point)
    : point * bool :=
  match cur, low, upp with
  | c :: cs, l :: ls, u :: us =>
      if bool_decide (c ≠ u)
      then ((if bool_decide (0 = mode_value mode) then c + 1 else u) :: cs, false)
      else let r := cube_step mode cs ls us in (l :: r.1, r.2)
  | _, _, _ => (cur, true)
  end.

(** Mode 1 on the coordinates after the first one. *)
Fixpoint bdr_tail_step (cur low upp : point) : point * bool :=
  match cur, low, upp with
  | c :: cs, l :: ls, u :: us =>
      if bool_decide (c ≠ u) then ((c + 1) :: cs, false)
      else let r := bdr_tail_step cs ls us in
           ((if r.2 then c else l) :: r.1, r.2)
  | _, _, _ => (cur, true)
  end.

Definition bdr_step (cur low upp : point) : point * bool :=
  match cur, low, upp with
  | c :: cs, l :: ls, u :: us =>
      if bool_decide (c ≠ u) then
        ((if bool_decide (c = l) && negb (any_eq cs ls || any_eq cs us)
          then u else c + 1) :: cs, false)
      else let r := bdr_tail_step cs ls us in
           ((if r.2 then c else l) :: r.1, r.2)
  | _, _, _ => (cur, true)
  end.

Definition step (mode : gsGridIteratorMode) (cur low upp : point)
    : point * bool :=
  match mode with
  | CUBE | VERTEX => cube_step mode cur low upp
  | BDR => bdr_step cur low upp
  | CWISE => (cur, true)
  end.

(** The flat index of a point, by recursion on the coordinates (the first
    coordinate runs fastest). *)
Fixpoint flat (p low upp : point) : Z :=
  match p, low, upp with
  | c :: cs, l :: ls, u :: us => (c - l) + (u - l + 1) * flat cs ls us
  | _, _, _ => 0
  end.

(** The order of the traversal: later coordinates are compared first. *)
Fixpoint colex_lt (p q : point) : Prop :=
  match p, q with
  | c :: cs, z :: zs => colex_lt cs zs ∨ (cs = zs ∧ c < z)
  | _, _ => False
  end.

(** The rank of a vertex in the order of the traversal: the coordinates
    at their upper bound are the binary digits. *)
Fixpoint vertex_rank (p upp : point) : Z :=
  match p, upp with
  | c :: cs, u :: us =>
      (if bool_decide (c = u) then 1 else 0) + 2 * vertex_rank cs us
  | _, _ => 0
  end.

(** A list whose elements grow strictly along [f]. *)
Fixpoint increasing {A} (f : A → Z) (l : list A) : Prop :=
  match l with
  | [] => True
  | x :: l' => Forall (λ y, f x < f y) l' ∧ increasing f l'
  end.

(** The number of lattice points of a box. *)
Definition volume (low upp : point) : Z :=
  prod (zip_with (λ u l, u - l + 1) upp low).


(** * Properties *)

(** ** The loops of [operator++] compute the recursive increments *)

Lemma set_cur_eq low upp cur n p :
  set_cur (Build low upp cur n) p = Build low upp p n.
Proof. reflexivity. Qed.

Lemma insert_middle {A} (l1 l2 : list A) x y :
  <[length l1 := x]> (l1 ++ y :: l2) = l1 ++ x :: l2.
Proof. rewrite insert_app_r_alt by lia. by rewrite Nat.sub_diag. Qed.

Lemma inc_cube_loop_spec mode rest : ∀ pre lpre ls upre us n,
  length lpre = length pre → length upre = length pre →
  length ls = length rest → length us = length rest →
  inc_cube_loop mode (length rest) (length pre)
    (Build (lpre ++ ls) (upre ++ us) (pre ++ rest) n)
  = Build (lpre ++ ls) (upre ++ us)
      (pre ++ (cube_step mode rest ls us).1)
      (if (cube_step mode rest ls us).2 then 0 else n).
Proof.
  induction rest as [|c cs IH]; intros pre lpre ls upre us n Hl Hu Hls Hus.
  - destruct ls, us; try discriminate. reflexivity.
  - destruct ls as [|l ls]; [discriminate|]. destruct us as [|u us]; [discriminate|].
    cbn [length inc_cube_loop cube_step m_cur m_upp m_low].
    rewrite list_lookup_total_middle by done.
    rewrite (list_lookup_total_middle upre) by done.
    rewrite (list_lookup_total_middle lpre) by done.
    rewrite !set_cur_eq.
    rewrite !insert_middle.
    case_bool_decide as Hcu.
    + case_bool_decide; reflexivity.
    + specialize (IH (pre ++ [l]) (lpre ++ [l]) ls (upre ++ [u]) us n).
      rewrite !length_app in IH. cbn [length] in IH.
      replace (S (length pre)) with (length pre + 1)%nat by lia.
      rewrite <- !(assoc_L (++)) in IH. cbn [app] in IH.
      rewrite IH by (simpl in *; lia). reflexivity.
Qed.

Lemma count_bound_loop_ge k : ∀ j it c, c ≤ count_bound_loop k j it c.
Proof.
  induction k as [|k IH]; intros j it c; simpl; [lia|].
  etrans; [|apply IH]. destruct (_ || _); lia.
Qed.

Lemma count_bound_loop_spec cs : ∀ pre lpre ls upre us n c,
  length lpre = length pre → length upre = length pre →
  length ls = length cs → length us = length cs →
  count_bound_loop (length cs) (length pre)
    (Build (lpre ++ ls) (upre ++ us) (pre ++ cs) n) c = c
  ↔ any_eq cs ls || any_eq cs us = false.
Proof.
  induction cs as [|x cs IH]; intros pre lpre ls upre us n c Hl Hu Hls Hus.
  - destruct ls, us; try discriminate. done.
  - destruct ls as [|l ls]; [discriminate|]. destruct us as [|u us]; [discriminate|].
    cbn [length count_bound_loop m_cur m_upp m_low].
    rewrite list_lookup_total_middle by done.
    rewrite (list_lookup_total_middle upre) by done.
    rewrite (list_lookup_total_middle lpre) by done.
    specialize (IH (pre ++ [x]) (lpre ++ [l]) ls (upre ++ [u]) us n).
    rewrite !length_app in IH. cbn [length] in IH.
    replace (S (length pre)) with (length pre + 1)%nat by lia.
    rewrite <- !(assoc_L (++)) in IH. cbn [app] in IH.
    unfold any_eq in *. cbn [zip zip_with existsb fst snd].
    destruct (bool_decide (x = l)) eqn:E1; destruct (bool_decide (x = u)) eqn:E2;
      cbn [orb].
    4: { apply IH; simpl in *; lia. }
    all: split; [intros Hc|by rewrite ?orb_true_r].
    all: pose proof (count_bound_loop_ge (length cs) (length pre + 1)
           (Build (lpre ++ l :: ls) (upre ++ u :: us) (pre ++ x :: cs) n) (c + 1));
         lia.
Qed.

Lemma reset_below_spec pre : ∀ lpre ls rest,
  length lpre = length pre →
  reset_below (length pre) (lpre ++ ls) (pre ++ rest) = lpre ++ rest.
Proof.
  induction pre as [|x pre IH] using rev_ind; intros lpre ls rest Hlen.
  - destruct lpre; [done|discriminate].
  - destruct lpre as [|l lpre _] using rev_ind.
    { rewrite length_app in Hlen. simpl in Hlen. lia. }
    rewrite !length_app in Hlen. simpl in Hlen.
    rewrite length_app. cbn [length]. rewrite Nat.add_1_r. cbn [reset_below].
    rewrite <- !(assoc_L (++)). cbn [app].
    rewrite (list_lookup_total_middle lpre) by lia.
    rewrite insert_middle. apply IH. lia.
Qed.

Lemma bdr_tail_step_done cur : ∀ low upp,
  (bdr_tail_step cur low upp).2 = true → (bdr_tail_step cur low upp).1 = cur.
Proof.
  induction cur as [|c cs IH]; intros [|l ls] [|u us]; simpl; try done.
  case_bool_decide; simpl; [done|]. intros Hd. rewrite Hd. by rewrite IH.
Qed.

Lemma inc_bdr_loop_tail rest : ∀ pre lpre ls upre us n,
  pre ≠ [] →
  length lpre = length pre → length upre = length pre →
  length ls = length rest → length us = length rest →
  inc_bdr_loop (length rest) (length pre)
    (Build (lpre ++ ls) (upre ++ us) (pre ++ rest) n)
  = Build (lpre ++ ls) (upre ++ us)
      (if (bdr_tail_step rest ls us).2 then pre ++ rest
       else lpre ++ (bdr_tail_step rest ls us).1)
      (if (bdr_tail_step rest ls us).2 then 0 else n).
Proof.
  induction rest as [|c cs IH]; intros pre lpre ls upre us n Hne Hl Hu Hls Hus.
  - destruct ls, us; try discriminate. reflexivity.
  - destruct ls as [|l ls]; [discriminate|]. destruct us as [|u us]; [discriminate|].
    cbn [length inc_bdr_loop bdr_tail_step m_cur m_upp m_low m_dim].
    rewrite list_lookup_total_middle by done.
    rewrite (list_lookup_total_middle upre) by done.
    rewrite (list_lookup_total_middle lpre) by done.
    case_bool_decide as Hcu.
    + cbn [fst snd]. rewrite set_cur_eq. f_equal.
      assert (count_bound_loop (length cs) (S (length pre))
                (Build (lpre ++ l :: ls) (upre ++ u :: us) (pre ++ c :: cs) n)
                (Z.of_nat (length pre) + 1) ≠ 1) as Hc.
      { pose proof (count_bound_loop_ge (length cs) (S (length pre))
          (Build (lpre ++ l :: ls) (upre ++ u :: us) (pre ++ c :: cs) n)
          (Z.of_nat (length pre) + 1)).
        destruct pre; [done|]. simpl length in *. lia. }
      rewrite (bool_decide_eq_false_2 _ Hc).
      assert (∀ b : bool, (if b then <[length pre:=c + 1]> (pre ++ c :: cs)
                           else <[length pre:=c + 1]> (pre ++ c :: cs))
                          = pre ++ (c + 1) :: cs) as ->.
      { intros []; apply insert_middle. }
      apply reset_below_spec. lia.
    + specialize (IH (pre ++ [c]) (lpre ++ [l]) ls (upre ++ [u]) us n).
      rewrite !length_app in IH. cbn [length] in IH.
      replace (S (length pre)) with (length pre + 1)%nat by lia.
      rewrite <- !(assoc_L (++)) in IH. cbn [app] in IH.
      rewrite IH; [|by destruct pre|simpl in *; lia..].
      cbn [fst snd]. by destruct (bdr_tail_step cs ls us).2.
Qed.

Lemma inc_bdr_loop_spec cur low upp n :
  length low = length cur → length upp = length cur →
  inc_bdr_loop (length cur) 0 (Build low upp cur n)
  = Build low upp (bdr_step cur low upp).1
      (if (bdr_step cur low upp).2 then 0 else n).
Proof.
  intros Hl Hu. destruct cur as [|c cs].
  - destruct low, upp; try discriminate. reflexivity.
  - destruct low as [|l ls]; [discriminate|]. destruct upp as [|u us]; [discriminate|].
    cbn [length inc_bdr_loop bdr_step m_cur m_upp m_low m_dim].
    change ((c :: cs) !!! 0%nat) with c. change ((u :: us) !!! 0%nat) with u.
    change ((l :: ls) !!! 0%nat) with l.
    case_bool_decide as Hcu.
    + cbn [fst snd reset_below]. rewrite set_cur_eq. f_equal.
      assert (bool_decide (Z.of_nat 0 + 1 ≠ n) || bool_decide (n = 1) = true) as ->.
      { destruct (decide (n = 1)) as [->|].
        - by rewrite orb_true_r.
        - rewrite bool_decide_eq_true_2; [done|]. simpl. lia. }
      rewrite andb_true_r. case_bool_decide as Hcl; [|done]. cbn [andb].
      pose proof (count_bound_loop_spec cs [c] [l] ls [u] us n (Z.of_nat 0 + 1)
                    eq_refl eq_refl) as Hcnt.
      cbn [app length] in Hcnt.
      destruct (any_eq cs ls || any_eq cs us) eqn:Hany; cbn [negb].
      * rewrite bool_decide_eq_false_2; [done|].
        intros Hc. apply Hcnt in Hc; [done|simpl in *; lia..].
      * rewrite bool_decide_eq_true_2; [done|].
        apply Hcnt; [simpl in *; lia..|done].
    + pose proof (inc_bdr_loop_tail cs [c] [l] ls [u] us n) as Ht.
      cbn [app length] in Ht. rewrite Ht; [|done|simpl in *; lia..].
      cbn [fst snd]. destruct (bdr_tail_step cs ls us).2 eqn:Hd; [|done].
      by rewrite bdr_tail_step_done.
Qed.

Lemma inc_step mode d it :
  dim_ok d (length (m_low it)) →
  m_dim it = Z.of_nat (length (m_low it)) →
  length (m_cur it) = length (m_low it) →
  length (m_upp it) = length (m_low it) →
  inc mode d it
  = Build (m_low it) (m_upp it)
      (step mode (m_cur it) (m_low it) (m_upp it)).1
      (if (step mode (m_cur it) (m_low it) (m_upp it)).2 then 0 else m_dim it).
Proof.
  intros Hd Hdim Hcur Hupp. destruct it as [low upp cur n]. simpl in *.
  assert (loop_bound d (Build low upp cur n) = length cur) as Hb.
  { unfold loop_bound. simpl. destruct Hd as [->| ->].
    - rewrite bool_decide_eq_true_2 by done. lia.
    - case_bool_decide; lia. }
  unfold inc, step. rewrite Hb.
  destruct mode; try reflexivity.
  - apply (inc_cube_loop_spec CUBE cur [] [] low [] upp n); simpl; lia.
  - apply inc_bdr_loop_spec; lia.
  - apply (inc_cube_loop_spec VERTEX cur [] [] low [] upp n); simpl; lia.
Qed.

(** ** Boxes, flat indices and the traversal order *)

Lemma in_box_nil : in_box [] [] [].
Proof. split; constructor. Qed.

Lemma in_box_cons c cs l ls u us :
  in_box (c :: cs) (l :: ls) (u :: us) ↔ l ≤ c ≤ u ∧ in_box cs ls us.
Proof.
  unfold in_box. split.
  - intros [H1 H2]. inversion H1; inversion H2; subst. tauto.
  - intros (? & ? & ?). split; constructor; tauto || lia.
Qed.

Lemma in_box_length p low upp :
  in_box p low upp → length low = length p ∧ length upp = length p.
Proof. intros [H1 H2]. apply Forall2_length in H1, H2. lia. Qed.

(** After a case analysis of the three lists of [Hb : in_box p low upp]:
    discard the cases of unequal lengths, split the hypothesis otherwise. *)
Ltac box_inv Hb :=
  try (exfalso; apply in_box_length in Hb; simpl in Hb; lia);
  try (apply in_box_cons in Hb as [? Hb]).

Lemma volume_cons l ls u us :
  volume (l :: ls) (u :: us) = (u - l + 1) * volume ls us.
Proof. reflexivity. Qed.

Lemma flat_bounds p : ∀ low upp,
  in_box p low upp → 0 ≤ flat p low upp < volume low upp.
Proof.
  induction p as [|c cs IH]; intros [|l ls] [|u us] Hb; box_inv Hb.
  - by compute.
  - rewrite volume_cons. simpl. specialize (IH _ _ Hb). nia.
Qed.

Lemma colex_lt_irrefl p : ¬ colex_lt p p.
Proof. induction p as [|c cs IH]; simpl; [tauto|]. intros [?|[_ ?]]; [tauto|lia]. Qed.

Lemma colex_lt_trans p : ∀ q r, colex_lt p q → colex_lt q r → colex_lt p r.
Proof.
  induction p as [|c cs IH]; intros [|z zs] [|w ws]; simpl; try tauto.
  intros [H1|[-> H1]] [H2|[-> H2]]; eauto. right. split; [done|lia].
Qed.

(** [low] comes first in the order of the traversal, [upp] comes last. *)
Lemma colex_low_first p : ∀ low upp,
  in_box p low upp → p = low ∨ colex_lt low p.
Proof.
  induction p as [|c cs IH]; intros [|l ls] [|u us] Hb; box_inv Hb.
  - by left.
  - simpl. destruct (IH _ _ Hb) as [->|?]; [|tauto].
    destruct (decide (c = l)) as [->|]; [by left|]. right. right. split; [done|lia].
Qed.

Lemma colex_upp_last p : ∀ low upp, in_box p low upp → ¬ colex_lt upp p.
Proof.
  induction p as [|c cs IH]; intros [|l ls] [|u us] Hb; box_inv Hb.
  - simpl. tauto.
  - simpl. intros [?|[_ ?]]; [by eapply IH|lia].
Qed.

(** ** One step of each mode *)

(** The step stays in the box and moves forward in flat index; in mode 0
    by exactly one. *)
Lemma cube_step_progress mode cur : ∀ low upp,
  in_box cur low upp → (cube_step mode cur low upp).2 = false →
  in_box (cube_step mode cur low upp).1 low upp ∧
  flat cur low upp < flat (cube_step mode cur low upp).1 low upp ∧
  (mode = CUBE →
   flat (cube_step mode cur low upp).1 low upp = flat cur low upp + 1).
Proof.
  induction cur as [|c cs IH]; intros [|l ls] [|u us] Hb; box_inv Hb;
    [done|]. cbn [cube_step].
  case_bool_decide as Hcu; cbn [fst snd].
  - intros _. rewrite in_box_cons.
    case_bool_decide as Hm; cbn [flat]; (split; [split; [lia|done]|]).
    + split; [lia|]. intros _. lia.
    + split; [lia|]. intros ->. done.
  - intros Hd. destruct (IH _ _ Hb Hd) as (Hb' & Hlt & Heq).
    rewrite in_box_cons. cbn [flat].
    split; [split; [lia|done]|]. split; [nia|]. intros Hm. rewrite Heq by done. nia.
Qed.

Lemma bdr_tail_step_progress cur : ∀ low upp,
  in_box cur low upp → (bdr_tail_step cur low upp).2 = false →
  in_box (bdr_tail_step cur low upp).1 low upp ∧
  flat cur low upp < flat (bdr_tail_step cur low upp).1 low upp.
Proof.
  induction cur as [|c cs IH]; intros [|l ls] [|u us] Hb; box_inv Hb;
    [done|]. cbn [bdr_tail_step].
  case_bool_decide as Hcu; cbn [fst snd].
  - intros _. rewrite in_box_cons. cbn [flat]. split; [split; [lia|done]|lia].
  - intros Hd. destruct (IH _ _ Hb Hd) as (Hb' & Hlt). rewrite Hd.
    rewrite in_box_cons. cbn [flat]. split; [split; [lia|done]|nia].
Qed.

Lemma bdr_step_progress cur low upp :
  in_box cur low upp → (bdr_step cur low upp).2 = false →
  in_box (bdr_step cur low upp).1 low upp ∧
  flat cur low upp < flat (bdr_step cur low upp).1 low upp.
Proof.
  destruct cur as [|c cs], low as [|l ls], upp as [|u us]; intros Hb; box_inv Hb;
    [done|]. cbn [bdr_step].
  case_bool_decide as Hcu; cbn [fst snd].
  - intros _. rewrite in_box_cons. cbn [flat].
    destruct (_ && _); (split; [split; [lia|done]|lia]).
  - intros Hd. destruct (bdr_tail_step_progress _ _ _ Hb Hd) as (Hb' & Hlt).
    rewrite Hd. rewrite in_box_cons. cbn [flat]. split; [split; [lia|done]|nia].
Qed.

Lemma step_progress mode cur low upp :
  in_box cur low upp → (step mode cur low upp).2 = false →
  in_box (step mode cur low upp).1 low upp ∧
  flat cur low upp < flat (step mode cur low upp).1 low upp.
Proof.
  destruct mode; cbn [step]; intros Hb Hd; try done.
  - by destruct (cube_step_progress CUBE _ _ _ Hb Hd) as (? & ? & _).
  - by apply bdr_step_progress.
  - by destruct (cube_step_progress VERTEX _ _ _ Hb Hd) as (? & ? & _).
Qed.

(** A traversal ends at the upper corner. *)
Lemma cube_step_done mode cur : ∀ low upp,
  in_box cur low upp → (cube_step mode cur low upp).2 = true → cur = upp.
Proof.
  induction cur as [|c cs IH]; intros [|l ls] [|u us] Hb; box_inv Hb;
    [done|]. cbn [cube_step].
  case_bool_decide as Hcu; cbn [fst snd]; [done|].
  intros Hd. rewrite (IH _ _ Hb Hd). f_equal. by destruct (decide (c = u)).
Qed.

Lemma bdr_tail_step_upp cur : ∀ low upp,
  in_box cur low upp → (bdr_tail_step cur low upp).2 = true → cur = upp.
Proof.
  induction cur as [|c cs IH]; intros [|l ls] [|u us] Hb; box_inv Hb;
    [done|]. cbn [bdr_tail_step].
  case_bool_decide as Hcu; cbn [fst snd]; [done|].
  intros Hd. rewrite (IH _ _ Hb Hd). f_equal. by destruct (decide (c = u)).
Qed.

Lemma step_done mode cur low upp :
  mode ≠ CWISE →
  in_box cur low upp → (step mode cur low upp).2 = true → cur = upp.
Proof.
  destruct mode; cbn [step]; intros Hm Hb Hd; try done.
  - by eapply cube_step_done.
  - destruct cur as [|c cs], low as [|l ls], upp as [|u us]; box_inv Hb; [done|].
    revert Hd. cbn [bdr_step]. case_bool_decide as Hcu; cbn [fst snd]; [done|].
    intros Hd. rewrite (bdr_tail_step_upp _ _ _ Hb Hd). f_equal.
    by destruct (decide (c = u)).
  - by eapply cube_step_done.
Qed.

(** No point of the box lies between a point and its successor. *)
Lemma cube_step_gap cur : ∀ low upp z,
  in_box cur low upp → in_box z low upp → colex_lt cur z →
  (cube_step CUBE cur low upp).2 = false ∧
  ((cube_step CUBE cur low upp).1 = z ∨ colex_lt (cube_step CUBE cur low upp).1 z).
Proof.
  induction cur as [|c cs IH]; intros [|l ls] [|u us] [|z zs] Hb Hz Hlt;
    box_inv Hb; box_inv Hz; try done.
  cbn [cube_step]. case_bool_decide as Hcu; cbn [fst snd bool_decide mode_value].
  - split; [done|]. rewrite bool_decide_eq_true_2 by done.
    destruct Hlt as [Hlt|[-> Hlt]]; [right; by left|].
    destruct (decide (c + 1 = z)) as [->|]; [by left|].
    right. right. split; [done|lia].
  - destruct Hlt as [Hlt|[-> Hlt]]; [|lia].
    destruct (IH _ _ _ Hb Hz Hlt) as [Hd [->|Hlt']].
    + split; [done|]. destruct (decide (l = z)) as [->|]; [by left|].
      right. right. split; [done|lia].
    + split; [done|]. right. by left.
Qed.

Lemma bdr_tail_step_gap cur : ∀ low upp z,
  in_box cur low upp → in_box z low upp → colex_lt cur z →
  (bdr_tail_step cur low upp).2 = false ∧
  ((bdr_tail_step cur low upp).1 = z ∨ colex_lt (bdr_tail_step cur low upp).1 z).
Proof.
  induction cur as [|c cs IH]; intros [|l ls] [|u us] [|z zs] Hb Hz Hlt;
    box_inv Hb; box_inv Hz; try done.
  cbn [bdr_tail_step]. case_bool_decide as Hcu; cbn [fst snd].
  - split; [done|].
    destruct Hlt as [Hlt|[-> Hlt]]; [right; by left|].
    destruct (decide (c + 1 = z)) as [->|]; [by left|].
    right. right. split; [done|lia].
  - destruct Hlt as [Hlt|[-> Hlt]]; [|lia].
    destruct (IH _ _ _ Hb Hz Hlt) as [Hd [Heq|Hlt']]; rewrite Hd.
    + split; [done|]. rewrite Heq. destruct (decide (l = z)) as [->|]; [by left|].
      right. right. split; [done|lia].
    + split; [done|]. right. by left.
Qed.

Lemma any_eq_cons c cs l ls :
  any_eq (c :: cs) (l :: ls) = bool_decide (c = l) || any_eq cs ls.
Proof. reflexivity. Qed.

(** In mode 1 no boundary point of the box lies between a boundary point
    and its successor. *)
Lemma bdr_step_gap cur low upp z :
  in_box cur low upp → in_box z low upp →
  any_eq z low || any_eq z upp = true → colex_lt cur z →
  (bdr_step cur low upp).2 = false ∧
  ((bdr_step cur low upp).1 = z ∨ colex_lt (bdr_step cur low upp).1 z).
Proof.
  destruct cur as [|c cs], low as [|l ls], upp as [|u us], z as [|z zs];
    intros Hb Hz Hbz Hlt; box_inv Hb; box_inv Hz; try done.
  cbn [bdr_step]. case_bool_decide as Hcu; cbn [fst snd].
  - split; [done|].
    destruct Hlt as [Hlt|[-> Hlt]].
    { right. by left. }
    rewrite !any_eq_cons in Hbz.
    destruct (bool_decide (c = l) && negb (any_eq zs ls || any_eq zs us)) eqn:Hj.
    + apply andb_true_iff in Hj as [Hcl Hn]. apply negb_true_iff in Hn.
      apply orb_false_iff in Hn as [Hn1 Hn2]. rewrite Hn1, Hn2, !orb_false_r in Hbz.
      apply bool_decide_eq_true in Hcl.
      apply orb_true_iff in Hbz as [Hzl|Hzu]; apply bool_decide_eq_true in Hzl || apply bool_decide_eq_true in Hzu.
      * lia.
      * left. by rewrite Hzu.
    + destruct (decide (c + 1 = z)) as [->|]; [by left|].
      right. right. split; [done|lia].
  - destruct Hlt as [Hlt|[-> Hlt]]; [|lia].
    destruct (bdr_tail_step_gap _ _ _ _ Hb Hz Hlt) as [Hd [Heq|Hlt']]; rewrite Hd.
    + split; [done|]. rewrite Heq. destruct (decide (l = z)) as [->|]; [by left|].
      right. right. split; [done|lia].
    + split; [done|]. right. by left.
Qed.

(** Mode 1 stays on the boundary. *)
Lemma bdr_step_boundary cur low upp :
  in_box cur low upp →
  any_eq cur low || any_eq cur upp = true →
  (bdr_step cur low upp).2 = false →
  any_eq (bdr_step cur low upp).1 low || any_eq (bdr_step cur low upp).1 upp = true.
Proof.
  destruct cur as [|c cs], low as [|l ls], upp as [|u us];
    intros Hb Hbd; box_inv Hb; try done.
  cbn [bdr_step]. case_bool_decide as Hcu; cbn [fst snd].
  - intros _. rewrite !any_eq_cons in *.
    destruct (bool_decide (c = l)) eqn:Hcl; cbn [andb].
    + destruct (any_eq cs ls) eqn:H1; destruct (any_eq cs us) eqn:H2; cbn [orb negb];
        rewrite ?orb_true_r; try done.
      rewrite (bool_decide_eq_true_2 (u = u)) by done. by rewrite orb_true_r.
    + rewrite (bool_decide_eq_false_2 (c = u)) in Hbd by done.
      cbn [orb] in Hbd. apply orb_true_iff in Hbd as [->| ->];
        by rewrite ?orb_true_r.
  - intros Hd. rewrite Hd, !any_eq_cons. by rewrite bool_decide_eq_true_2.
Qed.

Lemma any_eq_spec p : ∀ q,
  any_eq p q = true ↔ ∃ (i : nat) c, p !! i = Some c ∧ q !! i = Some c.
Proof.
  induction p as [|c cs IH]; intros [|l ls].
  - split; [done|]. by intros (i & x & ? & ?).
  - split; [done|]. by intros (i & x & ? & ?).
  - split; [done|]. by intros (i & x & ? & ?).
  - rewrite any_eq_cons, orb_true_iff, bool_decide_eq_true, IH. split.
    + intros [->|(i & x & ? & ?)]; [by exists 0%nat, l|by exists (S i), x].
    + intros ([|i] & x & H1 & H2); simpl in *; [left; congruence|right; eauto].
Qed.

Lemma on_boundary_spec p low upp :
  on_boundary p low upp ↔ any_eq p low || any_eq p upp = true.
Proof.
  rewrite orb_true_iff, !any_eq_spec. unfold on_boundary. split.
  - intros (i & c & Hp & [Hl|Hu]); [left|right]; eauto.
  - intros [(i & c & Hp & Hl)|(i & c & Hp & Hu)]; exists i, c; eauto.
Qed.

(** ** The traversal of the lattice iterator *)

Lemma inc_cube_loop_bounds mode k : ∀ i it,
  m_low (inc_cube_loop mode k i it) = m_low it ∧
  m_upp (inc_cube_loop mode k i it) = m_upp it.
Proof.
  induction k as [|k IH]; intros i it; simpl; [done|].
  case_bool_decide; [by case_bool_decide|]. by rewrite !(proj1 (IH _ _)), !(proj2 (IH _ _)).
Qed.

Lemma inc_bdr_loop_bounds k : ∀ i it,
  m_low (inc_bdr_loop k i it) = m_low it ∧
  m_upp (inc_bdr_loop k i it) = m_upp it.
Proof.
  induction k as [|k IH]; intros i it; simpl; [done|]. by case_bool_decide.
Qed.

Lemma inc_bounds mode d it :
  m_low (inc mode d it) = m_low it ∧ m_upp (inc mode d it) = m_upp it.
Proof.
  destruct mode; simpl; auto using inc_cube_loop_bounds, inc_bdr_loop_bounds.
Qed.

Lemma run_bounds mode d fuel : ∀ it,
  m_low (run mode d fuel it).2 = m_low it ∧
  m_upp (run mode d fuel it).2 = m_upp it.
Proof.
  induction fuel as [|f IH]; intros it; simpl; [done|].
  destruct (hasNext it); simpl; [|done].
  destruct (IH (inc mode d it)) as [-> ->]. apply inc_bounds.
Qed.

Lemma running_hasNext d it : running d it → hasNext it = true.
Proof. intros (_ & _ & Hn & _). apply bool_decide_eq_true. congruence. Qed.

Lemma running_inc mode d it :
  running d it →
  inc mode d it
  = Build (m_low it) (m_upp it)
      (step mode (m_cur it) (m_low it) (m_upp it)).1
      (if (step mode (m_cur it) (m_low it) (m_upp it)).2 then 0 else m_dim it).
Proof.
  intros (Hd & Hdim & _ & Hb). apply in_box_length in Hb as [? ?].
  apply inc_step; auto; lia.
Qed.

(** A step that does not finish leaves the iterator at a later point of
    the same box. *)
Lemma running_step mode d it :
  running d it →
  (step mode (m_cur it) (m_low it) (m_upp it)).2 = false →
  running d (inc mode d it) ∧
  m_low (inc mode d it) = m_low it ∧ m_upp (inc mode d it) = m_upp it ∧
  m_cur (inc mode d it) = (step mode (m_cur it) (m_low it) (m_upp it)).1 ∧
  flat (m_cur it) (m_low it) (m_upp it)
  < flat (m_cur (inc mode d it)) (m_low it) (m_upp it).
Proof.
  intros Hr Hs. rewrite (running_inc _ _ _ Hr), Hs. simpl.
  destruct Hr as (Hd & Hdim & Hn & Hb).
  destruct (step_progress _ _ _ _ Hb Hs) as [Hb' Hlt].
  repeat split; try done; apply Hb'.
Qed.

(** A step that finishes leaves an exhausted iterator. *)
Lemma running_done mode d it :
  running d it →
  (step mode (m_cur it) (m_low it) (m_upp it)).2 = true →
  hasNext (inc mode d it) = false.
Proof.
  intros Hr Hs. rewrite (running_inc _ _ _ Hr), Hs. reflexivity.
Qed.

Lemma run_done mode d fuel it :
  hasNext it = false → run mode d fuel it = ([], it).
Proof. intros Hn. destruct fuel; simpl; [done|]. by rewrite Hn. Qed.

(** The traversal terminates: a fuel of the points that remain in the box
    exhausts the iterator. *)
Lemma run_exhausts mode d fuel : ∀ it,
  (hasNext it = true →
   running d it ∧
   volume (m_low it) (m_upp it) - flat (m_cur it) (m_low it) (m_upp it)
   ≤ Z.of_nat fuel) →
  hasNext (run mode d fuel it).2 = false.
Proof.
  induction fuel as [|f IH]; intros it Hit.
  - simpl. destruct (hasNext it) eqn:Hn; [|done].
    destruct (Hit eq_refl) as [(_ & _ & _ & Hb) Hm].
    apply flat_bounds in Hb. lia.
  - simpl. destruct (hasNext it) eqn:Hn; [|done]. simpl.
    destruct (Hit eq_refl) as [Hr Hm].
    apply IH. intros Hn'.
    destruct (step mode (m_cur it) (m_low it) (m_upp it)).2 eqn:Hs.
    + rewrite (running_done _ _ _ Hr Hs) in Hn'. done.
    + destruct (running_step _ _ _ Hr Hs) as (Hr' & -> & -> & _ & Hlt).
      split; [done|lia].
Qed.

(** More fuel than the traversal needs changes nothing. *)
Lemma run_stable mode d f : ∀ f' it,
  hasNext (run mode d f it).2 = false → (f ≤ f')%nat →
  run mode d f' it = run mode d f it.
Proof.
  induction f as [|f IH]; intros f' it Hex Hle.
  - simpl in Hex. by rewrite run_done.
  - destruct f' as [|f']; [lia|]. simpl in *.
    destruct (hasNext it); [|done]. simpl in Hex.
    rewrite (IH f' _ Hex) by lia. done.
Qed.

Lemma box_size_volume it : box_size it = Z.to_nat (volume (m_low it) (m_upp it)).
Proof. reflexivity. Qed.

Lemma running_fuel d it :
  running d it →
  volume (m_low it) (m_upp it) - flat (m_cur it) (m_low it) (m_upp it)
  ≤ Z.of_nat (box_size it).
Proof.
  intros (_ & _ & _ & Hb). rewrite box_size_volume.
  apply flat_bounds in Hb. lia.
Qed.

Lemma traverse_exhausts mode d it :
  (hasNext it = true → running d it) →
  hasNext (exhaust mode d it) = false.
Proof.
  intros Hit. apply run_exhausts. intros Hn. specialize (Hit Hn).
  split; [done|]. rewrite box_size_volume.
  destruct Hit as (_ & _ & _ & Hb). apply flat_bounds in Hb. lia.
Qed.

(** [traverse] and [exhaust] are the outcome of the loop, whatever fuel
    beyond the size of the box it is given. *)
Lemma traverse_any_fuel mode d it fuel :
  (hasNext it = true → running d it) → (box_size it ≤ fuel)%nat →
  run mode d fuel it = (traverse mode d it, exhaust mode d it).
Proof.
  intros Hit Hfuel. rewrite (run_stable mode d (box_size it)); [|by apply traverse_exhausts|done].
  unfold traverse, exhaust. by destruct (run mode d (box_size it) it).
Qed.

(** The points of a traversal lie in the box. *)
Lemma run_in_box mode d fuel : ∀ it p,
  running d it → p ∈ (run mode d fuel it).1 →
  in_box p (m_low it) (m_upp it).
Proof.
  induction fuel as [|f IH]; intros it p Hr; simpl; [by intros ?%elem_of_nil|].
  rewrite (running_hasNext _ _ Hr). simpl. intros [->|Hin]%elem_of_cons.
  { apply Hr. }
  destruct (step mode (m_cur it) (m_low it) (m_upp it)).2 eqn:Hs.
  - rewrite run_done in Hin by eauto using running_done. by apply elem_of_nil in Hin.
  - destruct (running_step _ _ _ Hr Hs) as (Hr' & Hl & Hu & _).
    rewrite <- Hl, <- Hu. by apply IH.
Qed.

Lemma traverse_in_box mode d it p :
  running d it → p ∈ traverse mode d it → in_box p (m_low it) (m_upp it).
Proof. apply run_in_box. Qed.

(** The traversal visits its points in increasing flat index. *)
Lemma run_increasing mode d fuel : ∀ it p,
  running d it → p ∈ (run mode d fuel (inc mode d it)).1 →
  flat (m_cur it) (m_low it) (m_upp it) < flat p (m_low it) (m_upp it).
Proof.
  induction fuel as [|f IH]; intros it p Hr; simpl; [by intros ?%elem_of_nil|].
  destruct (step mode (m_cur it) (m_low it) (m_upp it)).2 eqn:Hs.
  { rewrite (running_done _ _ _ Hr Hs). by intros ?%elem_of_nil. }
  destruct (running_step _ _ _ Hr Hs) as (Hr' & Hl & Hu & _ & Hlt).
  rewrite (running_hasNext _ _ Hr'). simpl. intros [->|Hin]%elem_of_cons; [done|].
  specialize (IH _ _ Hr' Hin). rewrite Hl, Hu in IH. lia.
Qed.

Lemma run_NoDup mode d fuel : ∀ it,
  running d it → NoDup (run mode d fuel it).1.
Proof.
  induction fuel as [|f IH]; intros it Hr; simpl; [constructor|].
  rewrite (running_hasNext _ _ Hr). simpl. constructor.
  - intros Hin. apply (run_increasing _ _ _ _ _ Hr) in Hin. lia.
  - destruct (step mode (m_cur it) (m_low it) (m_upp it)).2 eqn:Hs.
    + rewrite run_done by eauto using running_done. constructor.
    + apply IH. by apply running_step.
Qed.

(** ** Construction *)

Lemma Forall2_le_refl (a : point) : Forall2 Z.le a a.
Proof. induction a; constructor; [lia|done]. Qed.

Lemma reset_running d a b open it :
  dim_ok d (length a) → reset a b open = Some it → hasNext it = true →
  running d it.
Proof.
  unfold reset. intros Hd. case_bool_decide as Hlen; [|done].
  intros [= <-]. unfold hasNext, running. simpl.
  destruct (bool_decide (Forall2 Z.le a _)) eqn:Hle; intros Hn.
  2: { by apply bool_decide_eq_true in Hn. }
  apply bool_decide_eq_true in Hle, Hn.
  repeat split; auto using Forall2_le_refl.
Qed.

Lemma make_closed a b :
  Forall2 Z.le a b →
  make a b false = Some (Build a b a (Z.of_nat (length a))).
Proof.
  intros Hle. unfold make, reset.
  rewrite bool_decide_eq_true_2 by eauto using Forall2_length.
  by rewrite bool_decide_eq_true_2.
Qed.

Lemma closed_running d a b :
  dim_ok d (length a) → a ≠ [] → Forall2 Z.le a b →
  running d (Build a b a (Z.of_nat (length a))).
Proof.
  intros Hd Hne Hle. repeat split; simpl; auto using Forall2_le_refl.
  destruct a; [done|simpl; lia].
Qed.

(** ** Mode 0: the flat index counts the steps *)

Lemma flat_low low : ∀ upp, flat low low upp = 0.
Proof.
  induction low as [|l ls IH]; intros [|u us]; simpl; try done. rewrite IH. lia.
Qed.

Lemma flat_upp low : ∀ upp,
  length low = length upp → flat upp low upp = volume low upp - 1.
Proof.
  induction low as [|l ls IH]; intros [|u us] Hlen; try done.
  rewrite volume_cons. simpl. rewrite IH by (simpl in Hlen; lia). lia.
Qed.

Lemma run_cube_flat d fuel : ∀ it,
  running d it →
  volume (m_low it) (m_upp it) - flat (m_cur it) (m_low it) (m_upp it)
  ≤ Z.of_nat fuel →
  Z.of_nat (length (run CUBE d fuel it).1)
  = volume (m_low it) (m_upp it) - flat (m_cur it) (m_low it) (m_upp it) ∧
  ∀ (k : nat) p, (run CUBE d fuel it).1 !! k = Some p →
    flat p (m_low it) (m_upp it)
    = flat (m_cur it) (m_low it) (m_upp it) + Z.of_nat k.
Proof.
  induction fuel as [|f IH]; intros it Hr Hm.
  { destruct Hr as (_ & _ & _ & Hb). apply flat_bounds in Hb. lia. }
  cbn [run]. rewrite (running_hasNext _ _ Hr). cbn [fst snd].
  destruct (step CUBE (m_cur it) (m_low it) (m_upp it)).2 eqn:Hs.
  - rewrite run_done by eauto using running_done. cbn [fst snd length].
    destruct Hr as (_ & _ & _ & Hb).
    apply step_done in Hs as ->; [|done..].
    rewrite flat_upp by (apply in_box_length in Hb; lia).
    split; [lia|]. intros [|k] p; [|done]. intros [= <-].
    rewrite flat_upp by (apply in_box_length in Hb; lia). lia.
  - destruct (running_step _ _ _ Hr Hs) as (Hr' & Hl & Hu & Hc & Hlt).
    assert (flat (m_cur (inc CUBE d it)) (m_low it) (m_upp it)
            = flat (m_cur it) (m_low it) (m_upp it) + 1) as Hf.
    { rewrite Hc. destruct Hr as (_ & _ & _ & Hb).
      by apply (cube_step_progress CUBE). }
    destruct (IH _ Hr') as [Hlen Hk]; rewrite ?Hl, ?Hu, ?Hf in *; [lia|].
    split; [cbn [length]; lia|]. intros [|k] p; simpl.
    + intros [= <-]. lia.
    + intros Hp. rewrite (Hk _ _ Hp). lia.
Qed.

(** ** The stride vector *)







(** ** Mode 1: the traversal covers the boundary *)

Lemma run_bdr_covers d fuel : ∀ it z,
  running d it →
  volume (m_low it) (m_upp it) - flat (m_cur it) (m_low it) (m_upp it)
  ≤ Z.of_nat fuel →
  in_box z (m_low it) (m_upp it) →
  any_eq z (m_low it) || any_eq z (m_upp it) = true →
  z = m_cur it ∨ colex_lt (m_cur it) z →
  z ∈ (run BDR d fuel it).1.
Proof.
  induction fuel as [|f IH]; intros it z Hr Hm Hz Hbz Hpos.
  { destruct Hr as (_ & _ & _ & Hb). apply flat_bounds in Hb. lia. }
  cbn [run]. rewrite (running_hasNext _ _ Hr). cbn [fst snd].
  destruct Hpos as [->|Hlt]; [by left|]. right.
  pose proof Hr as (_ & _ & _ & Hb).
  destruct (bdr_step_gap _ _ _ _ Hb Hz Hbz Hlt) as [Hs Hnext].
  destruct (running_step BDR _ _ Hr Hs) as (Hr' & Hl & Hu & Hc & Hflat).
  apply IH; rewrite ?Hl, ?Hu, ?Hc; try done.
  - rewrite <- Hc. lia.
  - destruct Hnext; auto.
Qed.

Lemma run_bdr_boundary d fuel : ∀ it p,
  running d it →
  any_eq (m_cur it) (m_low it) || any_eq (m_cur it) (m_upp it) = true →
  p ∈ (run BDR d fuel it).1 →
  any_eq p (m_low it) || any_eq p (m_upp it) = true.
Proof.
  induction fuel as [|f IH]; intros it p Hr Hbd; cbn [run];
    [by intros ?%elem_of_nil|].
  rewrite (running_hasNext _ _ Hr). cbn [fst snd].
  intros [->|Hin]%elem_of_cons; [done|].
  destruct (step BDR (m_cur it) (m_low it) (m_upp it)).2 eqn:Hs.
  - rewrite run_done in Hin by eauto using running_done. by apply elem_of_nil in Hin.
  - destruct (running_step _ _ _ Hr Hs) as (Hr' & Hl & Hu & Hc & _).
    rewrite <- Hl, <- Hu. apply IH; [done| |done].
    rewrite Hl, Hu, Hc. destruct Hr as (_ & _ & _ & Hb).
    by apply bdr_step_boundary.
Qed.

(** The boundary points of any box of dimension at least one, exactly. *)
Lemma bdr_traverse_exact d low upp p :
  dim_ok d (length low) → low ≠ [] → Forall2 Z.le low upp →
  p ∈ traverse BDR d (Build low upp low (Z.of_nat (length low)))
  ↔ in_box p low upp ∧ on_boundary p low upp.
Proof.
  intros Hd Hne Hle.
  pose proof (closed_running d low upp Hd Hne Hle) as Hr.
  assert (any_eq low low || any_eq low upp = true) as Hlow.
  { destruct low as [|l ls]; [done|]. destruct upp as [|u us]; [by inversion Hle|].
    rewrite any_eq_cons. by rewrite bool_decide_eq_true_2. }
  unfold traverse. rewrite on_boundary_spec. split.
  - intros Hin. split.
    + by apply (run_in_box _ _ _ _ _ Hr Hin).
    + by apply (run_bdr_boundary _ _ _ _ Hr Hlow Hin).
  - intros [Hb Hbd]. apply run_bdr_covers; try done.
    + by apply (running_fuel d).
    + cbn [m_cur]. destruct (colex_low_first _ _ _ Hb); auto.
Qed.

(** ** Mode 0: the traversal covers the box *)

Lemma run_cube_covers d fuel : ∀ it z,
  running d it →
  volume (m_low it) (m_upp it) - flat (m_cur it) (m_low it) (m_upp it)
  ≤ Z.of_nat fuel →
  in_box z (m_low it) (m_upp it) →
  z = m_cur it ∨ colex_lt (m_cur it) z →
  z ∈ (run CUBE d fuel it).1.
Proof.
  induction fuel as [|f IH]; intros it z Hr Hm Hz Hpos.
  { destruct Hr as (_ & _ & _ & Hb). apply flat_bounds in Hb. lia. }
  cbn [run]. rewrite (running_hasNext _ _ Hr). cbn [fst snd].
  destruct Hpos as [->|Hlt]; [by left|]. right.
  pose proof Hr as (_ & _ & _ & Hb).
  destruct (cube_step_gap _ _ _ _ Hb Hz Hlt) as [Hs Hnext].
  destruct (running_step CUBE _ _ Hr Hs) as (Hr' & Hl & Hu & Hc & Hflat).
  apply IH; rewrite ?Hl, ?Hu, ?Hc; try done.
  - rewrite <- Hc. lia.
  - destruct Hnext; auto.
Qed.

Lemma cube_traverse_exact d it p :
  running d it → m_cur it = m_low it →
  p ∈ traverse CUBE d it ↔ in_box p (m_low it) (m_upp it).
Proof.
  intros Hr Hc. split; [by apply traverse_in_box|].
  intros Hb. apply run_cube_covers; try done.
  - by apply (running_fuel d).
  - rewrite Hc. destruct (colex_low_first _ _ _ Hb); auto.
Qed.

(** ** The end of a traversal, and its restart *)

Lemma run_last mode d fuel : ∀ it,
  mode ≠ CWISE → running d it →
  hasNext (run mode d fuel it).2 = false →
  list.last (run mode d fuel it).1 = Some (m_upp it).
Proof.
  induction fuel as [|f IH]; intros it Hm Hr.
  { cbn [run snd]. by rewrite (running_hasNext _ _ Hr). }
  cbn [run]. rewrite (running_hasNext _ _ Hr). cbn [fst snd]. intros Hex.
  rewrite last_cons.
  destruct (step mode (m_cur it) (m_low it) (m_upp it)).2 eqn:Hs.
  - rewrite run_done by eauto using running_done. cbn [fst list.last].
    destruct Hr as (_ & _ & _ & Hb). f_equal. by eapply step_done.
  - destruct (running_step _ _ _ Hr Hs) as (Hr' & Hl & Hu & _).
    rewrite (IH _ Hm Hr' Hex). by rewrite Hu.
Qed.

Lemma reset_length a b open it :
  reset a b open = Some it →
  m_low it = a ∧ m_cur it = a ∧ length (m_upp it) = length a ∧
  m_upp it = (if open then (λ x, x - 1) <$> b else b).
Proof.
  unfold reset. case_bool_decide as Hlen; [|done]. intros [= <-]. simpl.
  repeat split. destruct open; rewrite ?length_fmap; done.
Qed.

(** [reset()] after any number of steps gives back the iterator as it was
    constructed. *)
Lemma reset0_run mode d fuel a b open it :
  reset a b open = Some it → reset0 (run mode d fuel it).2 = Some it.
Proof.
  intros Hreset. unfold reset0.
  destruct (run_bounds mode d fuel it) as [-> ->].
  pose proof (reset_length _ _ _ _ Hreset) as (Hl & Hc & Hlen & Hu).
  revert Hreset. unfold reset. case_bool_decide as Hab; [|done].
  rewrite <- Hu. intros [= <-]. cbn [m_low m_upp] in *.
  by rewrite bool_decide_eq_true_2.
Qed.

(** ** The uniform sample iterator *)

Section UniformProps.
Context {T : Type} `{Scalar T}.

Lemma uniform_inc_iter mode d (u : UniformGrid.gsGridIterator T) :
  UniformGrid.m_iter (UniformGrid.inc mode d u)
  = inc mode d (UniformGrid.m_iter u) ∧
  UniformGrid.m_low (UniformGrid.inc mode d u) = UniformGrid.m_low u ∧
  UniformGrid.m_upp (UniformGrid.inc mode d u) = UniformGrid.m_upp u ∧
  UniformGrid.m_step (UniformGrid.inc mode d u) = UniformGrid.m_step u.
Proof. unfold UniformGrid.inc. cbn. by destruct (hasNext _). Qed.

(** The sample iterator steps its lattice iterator and nothing else of
    what a traversal depends on. *)
Lemma uniform_run_iter mode d fuel : ∀ u : UniformGrid.gsGridIterator T,
  (UniformGrid.run mode d fuel u).1.*1
  = (run mode d fuel (UniformGrid.m_iter u)).1 ∧
  UniformGrid.m_iter (UniformGrid.run mode d fuel u).2
  = (run mode d fuel (UniformGrid.m_iter u)).2 ∧
  UniformGrid.m_low (UniformGrid.run mode d fuel u).2 = UniformGrid.m_low u ∧
  UniformGrid.m_upp (UniformGrid.run mode d fuel u).2 = UniformGrid.m_upp u ∧
  UniformGrid.m_step (UniformGrid.run mode d fuel u).2 = UniformGrid.m_step u.
Proof.
  induction fuel as [|f IH]; intros u; [done|].
  cbn [UniformGrid.run run]. unfold UniformGrid.hasNext.
  destruct (hasNext (UniformGrid.m_iter u)); [|done]. cbn [fst snd fmap list_fmap].
  destruct (IH (UniformGrid.inc mode d u)) as (-> & -> & -> & -> & ->).
  destruct (uniform_inc_iter mode d u) as (-> & -> & -> & ->). done.
Qed.

Lemma sample_loop_spec mode (u : UniformGrid.gsGridIterator T) k :
  ∀ i cur, (i + k ≤ length cur)%nat →
  UniformGrid.sample_loop mode k i u cur
  = take i cur ++ (UniformGrid.coordinate mode u <$> seq i k)
    ++ drop (i + k) cur.
Proof.
  induction k as [|k IH]; intros i cur Hlen; cbn [UniformGrid.sample_loop].
  - rewrite Nat.add_0_r. cbn. by rewrite take_drop.
  - rewrite IH by (rewrite length_insert; lia).
    erewrite take_S_r; [|apply list_lookup_insert_eq; lia].
    rewrite take_insert_ge by lia. rewrite drop_insert_lt by lia.
    rewrite <- (assoc_L (++)). cbn [seq fmap list_fmap app].
    by replace (S i + k)%nat with (i + S k)%nat by lia.
Qed.

(** Every emitted pair is the tensor index and the current point of a
    state whose coordinates are the values that [operator++] stores. *)
Lemma uniform_reachable mode d fuel :
  ∀ (u : UniformGrid.gsGridIterator T) idx p,
  dim_ok d (length (UniformGrid.m_low u)) →
  length (UniformGrid.m_cur u) = length (UniformGrid.m_low u) →
  (∀ i, (i < length (UniformGrid.m_low u))%nat →
        UniformGrid.m_cur u !!! i = UniformGrid.coordinate mode u i) →
  (idx, p) ∈ (UniformGrid.run mode d fuel u).1 →
  ∃ u', UniformGrid.m_low u' = UniformGrid.m_low u ∧
        UniformGrid.m_upp u' = UniformGrid.m_upp u ∧
        UniformGrid.m_step u' = UniformGrid.m_step u ∧
        m_low (UniformGrid.m_iter u') = m_low (UniformGrid.m_iter u) ∧
        m_upp (UniformGrid.m_iter u') = m_upp (UniformGrid.m_iter u) ∧
        UniformGrid.tensorIndex u' = idx ∧ UniformGrid.m_cur u' = p ∧
        length p = length (UniformGrid.m_low u) ∧
        ∀ i, (i < length (UniformGrid.m_low u))%nat →
             p !!! i = UniformGrid.coordinate mode u' i.
Proof.
  induction fuel as [|f IH]; intros u idx p Hd Hlen Hrule;
    cbn [UniformGrid.run]; [by intros ?%elem_of_nil|].
  destruct (UniformGrid.hasNext u); [|by intros ?%elem_of_nil].
  cbn [fst]. intros [[= -> ->]|Hin]%elem_of_cons.
  { exists u. repeat split; done. }
  destruct (uniform_inc_iter mode d u) as (Hi & Hl & Hu & Hs).
  destruct (UniformGrid.hasNext (UniformGrid.inc mode d u)) eqn:Hn.
  2: { destruct f; cbn [UniformGrid.run] in Hin; rewrite ?Hn in Hin;
       by apply elem_of_nil in Hin. }
  assert (UniformGrid.m_cur (UniformGrid.inc mode d u)
          = UniformGrid.coordinate mode (UniformGrid.inc mode d u)
              <$> seq 0 (length (UniformGrid.m_low u))) as Hcur.
  { unfold UniformGrid.hasNext in Hn. rewrite Hi in Hn.
    unfold UniformGrid.inc. cbn. rewrite Hn. cbn.
    assert ((if bool_decide (d = -1) then length (UniformGrid.m_low u)
             else Z.to_nat d) = length (UniformGrid.m_low u)) as ->.
    { destruct Hd as [->| ->]; [done|]. case_bool_decide; lia. }
    rewrite sample_loop_spec by lia. cbn [take app].
    rewrite drop_ge by lia. by rewrite app_nil_r. }
  destruct (IH (UniformGrid.inc mode d u) idx p) as (u' & H1 & H2 & H3 & H4 & H5 & Hrest);
    rewrite ?Hl; try done.
  - by rewrite Hcur, length_fmap, length_seq.
  - intros i Hi'. rewrite Hcur. apply list_lookup_total_correct.
    rewrite list_lookup_fmap, lookup_seq_lt by lia. done.
  - exists u'. rewrite H1, H2, H3, H4, H5, Hl, Hu, Hs, Hi.
    destruct (inc_bounds mode d (UniformGrid.m_iter u)) as [-> ->].
    by rewrite Hl in Hrest.
Qed.

Lemma numPointsCwise_upper (np : point) it :
  make_upper np true = Some it → numPointsCwise it = np.
Proof.
  intros Hm. apply reset_length in Hm as (Hl & _ & _ & Hu).
  unfold numPointsCwise. rewrite Hl, Hu. clear.
  induction np as [|n np IH]; [done|]. cbn. rewrite IH. f_equal. lia.
Qed.

(** What the constructor builds. *)
Lemma uniform_make (a b : list T) np u :
  UniformGrid.make a b np = Some u →
  ∃ it, make_upper np true = Some it ∧
    u = UniformGrid.Build a b
          (zip_with scalar_div (zip_with scalar_sub b a)
             ((λ n, scalar_cast (Z.max (n - 1) 1)) <$> np))
          it a.
Proof.
  unfold UniformGrid.make. destruct (make_upper np true) as [it|] eqn:Hit; [|done].
  cbn. unfold UniformGrid.reset. cbn.
  pose proof (reset0_run CUBE 0 0 _ _ _ _ Hit) as Hr. cbn [run snd] in Hr.
  rewrite Hr. cbn.
  rewrite (numPointsCwise_upper _ _ Hit). intros [= <-]. by exists it.
Qed.

Lemma make_upper_bounds (np : point) open it :
  make_upper np open = Some it →
  m_low it = replicate (length np) 0 ∧ m_cur it = replicate (length np) 0 ∧
  m_upp it = (if open then (λ x, x - 1) <$> np else np).
Proof. intros Hm. apply reset_length in Hm as (? & ? & _ & ?). done. Qed.

Lemma make_upper_running d (np : point) open it :
  dim_ok d (length np) → make_upper np open = Some it →
  hasNext it = true → running d it.
Proof.
  intros Hd Hm. eapply reset_running; [|exact Hm]. by rewrite length_replicate.
Qed.

Lemma in_box_lookup p low upp (i : nat) :
  in_box p low upp → (i < length p)%nat → low !!! i ≤ p !!! i ≤ upp !!! i.
Proof.
  intros Hb Hi. pose proof (in_box_length _ _ _ Hb) as [Hl Hu].
  destruct (lookup_lt_is_Some_2 p i Hi) as [x Hx].
  destruct (lookup_lt_is_Some_2 low i ltac:(lia)) as [l Hlo].
  destruct (lookup_lt_is_Some_2 upp i ltac:(lia)) as [u Hup].
  rewrite (list_lookup_total_correct _ _ _ Hx).
  rewrite (list_lookup_total_correct _ _ _ Hlo).
  rewrite (list_lookup_total_correct _ _ _ Hup).
  destruct Hb as [H1 H2].
  pose proof (Forall2_lookup_lr _ _ _ _ _ _ H1 Hlo Hx).
  pose proof (Forall2_lookup_lr _ _ _ _ _ _ H2 Hx Hup). lia.
Qed.

Lemma pred_lookup (np : point) (i : nat) :
  (i < length np)%nat → ((λ x, x - 1) <$> np) !!! i = np !!! i - 1.
Proof.
  intros Hi. destruct (lookup_lt_is_Some_2 np i Hi) as [n Hn].
  rewrite (list_lookup_total_correct _ _ _ Hn).
  apply list_lookup_total_correct. by rewrite list_lookup_fmap, Hn.
Qed.

Lemma make_upper_closed_hasNext (np : point) it :
  Forall (λ n, 0 ≤ n) np → np ≠ [] →
  make_upper np false = Some it → hasNext it = true.
Proof.
  intros Hnp Hne. unfold make_upper, reset.
  rewrite bool_decide_eq_true_2 by (by rewrite length_replicate).
  intros [= <-]. unfold hasNext. cbn [m_dim].
  rewrite (bool_decide_eq_true_2 (Forall2 _ _ _)).
  - apply bool_decide_eq_true. rewrite length_replicate. destruct np; [done|].
    cbn [length]. lia.
  - clear Hne. induction Hnp; cbn [length replicate]; constructor; [lia|done].
Qed.

Lemma in_box_insert p low upp (i : nat) l u k :
  in_box p low upp → low !! i = Some l → upp !! i = Some u →
  l ≤ k ≤ u → in_box (<[i := k]> p) low upp.
Proof.
  intros [H1 H2] Hl Hu Hk.
  rewrite <- (list_insert_id low i l Hl), <- (list_insert_id upp i u Hu).
  split; apply Forall2_insert; (done || lia).
Qed.

Lemma make_upper_open_hasNext (np : point) it :
  Forall (λ n, 1 ≤ n) np → np ≠ [] →
  make_upper np true = Some it → hasNext it = true.
Proof.
  intros Hnp Hne. unfold make_upper, reset.
  rewrite bool_decide_eq_true_2 by (by rewrite length_replicate).
  intros [= <-]. unfold hasNext. cbn [m_dim].
  rewrite (bool_decide_eq_true_2 (Forall2 _ _ _)).
  - apply bool_decide_eq_true. rewrite length_replicate. destruct np; [done|].
    cbn [length]. lia.
  - clear Hne. induction Hnp; cbn [length replicate fmap list_fmap];
      constructor; [lia|done].
Qed.

(** The step of an axis, as [reset(a, b)] computes it. *)
Lemma uniform_step_lookup (a b : list T) (np : point) (i : nat) :
  length a = length np → length b = length np → (i < length np)%nat →
  zip_with scalar_div (zip_with scalar_sub b a)
    ((λ n, scalar_cast (Z.max (n - 1) 1)) <$> np) !!! i
  = scalar_div (scalar_sub (b !!! i) (a !!! i))
      (scalar_cast (Z.max (np !!! i - 1) 1)).
Proof.
  intros Ha Hb Hi.
  destruct (lookup_lt_is_Some_2 a i ltac:(lia)) as [x Hx].
  destruct (lookup_lt_is_Some_2 b i ltac:(lia)) as [y Hy].
  destruct (lookup_lt_is_Some_2 np i Hi) as [n Hn].
  rewrite (list_lookup_total_correct a i x Hx).
  rewrite (list_lookup_total_correct b i y Hy).
  rewrite (list_lookup_total_correct np i n Hn).
  apply list_lookup_total_correct.
  rewrite !lookup_zip_with, list_lookup_fmap, Hx, Hy, Hn. done.
Qed.

End UniformProps.

(** ** The coordinate-wise iterator *)

Section CwiseProps.
Context {T : Type} `{Inhabited T}.

Lemma cwise_inc_iter d (c : CwiseGrid.gsGridIterator T) :
  CwiseGrid.m_iter (CwiseGrid.inc d c) = inc CUBE d (CwiseGrid.m_iter c) ∧
  CwiseGrid.m_cwise (CwiseGrid.inc d c) = CwiseGrid.m_cwise c.
Proof. unfold CwiseGrid.inc. cbn. by destruct (hasNext _). Qed.

Lemma cwise_run_iter d fuel : ∀ c : CwiseGrid.gsGridIterator T,
  (CwiseGrid.run d fuel c).1.*1 = (run CUBE d fuel (CwiseGrid.m_iter c)).1 ∧
  CwiseGrid.m_iter (CwiseGrid.run d fuel c).2
  = (run CUBE d fuel (CwiseGrid.m_iter c)).2 ∧
  CwiseGrid.m_cwise (CwiseGrid.run d fuel c).2 = CwiseGrid.m_cwise c.
Proof.
  induction fuel as [|f IH]; intros c; [done|].
  cbn [CwiseGrid.run run]. unfold CwiseGrid.hasNext.
  destruct (hasNext (CwiseGrid.m_iter c)); [|done]. cbn [fst snd fmap list_fmap].
  destruct (IH (CwiseGrid.inc d c)) as (-> & -> & ->).
  destruct (cwise_inc_iter d c) as (-> & ->). done.
Qed.

Lemma update_loop_spec (c : CwiseGrid.gsGridIterator T) k : ∀ i cur,
  (i + k ≤ length (CwiseGrid.coeffs cur))%nat →
  CwiseGrid.update_loop k i c cur
  = CwiseGrid.Matrix (CwiseGrid.rows cur) (CwiseGrid.cols cur)
      (take i (CwiseGrid.coeffs cur) ++ (CwiseGrid.coordinate c <$> seq i k)
       ++ drop (i + k) (CwiseGrid.coeffs cur)).
Proof.
  induction k as [|k IH]; intros i cur Hlen; cbn [CwiseGrid.update_loop].
  - rewrite Nat.add_0_r. cbn. rewrite take_drop. by destruct cur.
  - rewrite IH by (cbn; rewrite length_insert; lia). cbn.
    erewrite take_S_r; [|apply list_lookup_insert_eq; lia].
    rewrite take_insert_ge by lia. rewrite drop_insert_lt by lia.
    rewrite <- (assoc_L (++)). cbn [app].
    by replace (S (i + k))%nat with (i + S k)%nat by lia.
Qed.

(** [update()] rewrites the first [m_cur.rows()] coefficients and keeps
    the shape and the other coefficients. *)
Lemma update_spec (c : CwiseGrid.gsGridIterator T) :
  let r := Z.to_nat (CwiseGrid.rows (CwiseGrid.m_cur c)) in
  (r ≤ length (CwiseGrid.coeffs (CwiseGrid.m_cur c)))%nat →
  CwiseGrid.update c
  = CwiseGrid.Build (CwiseGrid.m_cwise c) (CwiseGrid.m_iter c)
      (CwiseGrid.Matrix (CwiseGrid.rows (CwiseGrid.m_cur c))
         (CwiseGrid.cols (CwiseGrid.m_cur c))
         ((CwiseGrid.coordinate c <$> seq 0 r)
          ++ drop r (CwiseGrid.coeffs (CwiseGrid.m_cur c)))).
Proof.
  intros r Hr. unfold CwiseGrid.update. by rewrite update_loop_spec.
Qed.

(** Two current points are alike for [update()] when they have the same
    shape and the same coefficients past the rows. *)
Lemma update_alike cw it (m1 m2 : CwiseGrid.gsMatrix T) :
  CwiseGrid.rows m1 = CwiseGrid.rows m2 →
  CwiseGrid.cols m1 = CwiseGrid.cols m2 →
  (Z.to_nat (CwiseGrid.rows m1) ≤ length (CwiseGrid.coeffs m1))%nat →
  (Z.to_nat (CwiseGrid.rows m2) ≤ length (CwiseGrid.coeffs m2))%nat →
  drop (Z.to_nat (CwiseGrid.rows m1)) (CwiseGrid.coeffs m1)
  = drop (Z.to_nat (CwiseGrid.rows m2)) (CwiseGrid.coeffs m2) →
  CwiseGrid.update (CwiseGrid.Build cw it m1)
  = CwiseGrid.update (CwiseGrid.Build cw it m2).
Proof.
  intros Hr Hc H1 H2 Hd. rewrite !update_spec by done. cbn.
  rewrite Hd, Hr, Hc. done.
Qed.

Lemma update_frame (c : CwiseGrid.gsGridIterator T) :
  let r := Z.to_nat (CwiseGrid.rows (CwiseGrid.m_cur c)) in
  (r ≤ length (CwiseGrid.coeffs (CwiseGrid.m_cur c)))%nat →
  CwiseGrid.rows (CwiseGrid.m_cur (CwiseGrid.update c))
  = CwiseGrid.rows (CwiseGrid.m_cur c) ∧
  CwiseGrid.cols (CwiseGrid.m_cur (CwiseGrid.update c))
  = CwiseGrid.cols (CwiseGrid.m_cur c) ∧
  length (CwiseGrid.coeffs (CwiseGrid.m_cur (CwiseGrid.update c)))
  = length (CwiseGrid.coeffs (CwiseGrid.m_cur c)) ∧
  drop r (CwiseGrid.coeffs (CwiseGrid.m_cur (CwiseGrid.update c)))
  = drop r (CwiseGrid.coeffs (CwiseGrid.m_cur c)) ∧
  ∀ i, (i < r)%nat →
    CwiseGrid.coeffs (CwiseGrid.m_cur (CwiseGrid.update c)) !! i
    = Some (CwiseGrid.coordinate c i).
Proof.
  intros r Hr. rewrite update_spec by done. cbn. fold r.
  repeat split.
  - rewrite length_app, length_fmap, length_seq, length_drop. lia.
  - rewrite drop_app_length'; [done|]. by rewrite length_fmap, length_seq.
  - intros i Hi. rewrite lookup_app_l by (rewrite length_fmap, length_seq; lia).
    by rewrite list_lookup_fmap, lookup_seq_lt.
Qed.

Lemma cwise_inc_frame d (c : CwiseGrid.gsGridIterator T) :
  let r := Z.to_nat (CwiseGrid.rows (CwiseGrid.m_cur c)) in
  (r ≤ length (CwiseGrid.coeffs (CwiseGrid.m_cur c)))%nat →
  CwiseGrid.rows (CwiseGrid.m_cur (CwiseGrid.inc d c))
  = CwiseGrid.rows (CwiseGrid.m_cur c) ∧
  CwiseGrid.cols (CwiseGrid.m_cur (CwiseGrid.inc d c))
  = CwiseGrid.cols (CwiseGrid.m_cur c) ∧
  length (CwiseGrid.coeffs (CwiseGrid.m_cur (CwiseGrid.inc d c)))
  = length (CwiseGrid.coeffs (CwiseGrid.m_cur c)) ∧
  drop r (CwiseGrid.coeffs (CwiseGrid.m_cur (CwiseGrid.inc d c)))
  = drop r (CwiseGrid.coeffs (CwiseGrid.m_cur c)) ∧
  (CwiseGrid.hasNext (CwiseGrid.inc d c) = true →
   ∀ i, (i < r)%nat →
     CwiseGrid.coeffs (CwiseGrid.m_cur (CwiseGrid.inc d c)) !! i
     = Some (CwiseGrid.coordinate (CwiseGrid.inc d c) i)).
Proof.
  intros r Hr. unfold CwiseGrid.inc, CwiseGrid.hasNext.
  cbn [CwiseGrid.m_iter].
  destruct (hasNext (inc CUBE d (CwiseGrid.m_iter c))) eqn:Hn.
  - set (c1 := CwiseGrid.Build _ _ _).
    destruct (update_frame c1) as (H1 & H2 & H3 & H4 & H5); [done|].
    repeat split; done.
  - cbn [CwiseGrid.m_iter CwiseGrid.m_cur]. rewrite Hn. done.
Qed.

Lemma cwise_run_frame d fuel : ∀ c : CwiseGrid.gsGridIterator T,
  let r := Z.to_nat (CwiseGrid.rows (CwiseGrid.m_cur c)) in
  (r ≤ length (CwiseGrid.coeffs (CwiseGrid.m_cur c)))%nat →
  CwiseGrid.rows (CwiseGrid.m_cur (CwiseGrid.run d fuel c).2)
  = CwiseGrid.rows (CwiseGrid.m_cur c) ∧
  CwiseGrid.cols (CwiseGrid.m_cur (CwiseGrid.run d fuel c).2)
  = CwiseGrid.cols (CwiseGrid.m_cur c) ∧
  length (CwiseGrid.coeffs (CwiseGrid.m_cur (CwiseGrid.run d fuel c).2))
  = length (CwiseGrid.coeffs (CwiseGrid.m_cur c)) ∧
  drop r (CwiseGrid.coeffs (CwiseGrid.m_cur (CwiseGrid.run d fuel c).2))
  = drop r (CwiseGrid.coeffs (CwiseGrid.m_cur c)).
Proof.
  induction fuel as [|f IH]; intros c r Hr; [done|].
  cbn [CwiseGrid.run]. destruct (CwiseGrid.hasNext c); [|done]. cbn [snd].
  destruct (cwise_inc_frame d c Hr) as (H1 & H2 & H3 & H4 & _).
  destruct (IH (CwiseGrid.inc d c)) as (-> & -> & -> & H5).
  { rewrite H1, H3. done. }
  rewrite H1 in H5. fold r in H5. rewrite H5. done.
Qed.

(** Every emitted pair holds, in the coefficients below [m_cur.rows()],
    the entries of the coordinate arrays at the tensor index. *)
Lemma cwise_reachable d fuel : ∀ (c : CwiseGrid.gsGridIterator T) idx pt,
  let r := Z.to_nat (CwiseGrid.rows (CwiseGrid.m_cur c)) in
  (r ≤ length (CwiseGrid.coeffs (CwiseGrid.m_cur c)))%nat →
  (∀ i, (i < r)%nat →
     CwiseGrid.coeffs (CwiseGrid.m_cur c) !! i = Some (CwiseGrid.coordinate c i)) →
  (idx, pt) ∈ (CwiseGrid.run d fuel c).1 →
  CwiseGrid.rows pt = CwiseGrid.rows (CwiseGrid.m_cur c) ∧
  ∀ i, (i < r)%nat →
    CwiseGrid.coeffs pt !! i
    = Some (CwiseGrid.at_ (CwiseGrid.m_cwise c !!! i) (idx !!! i)).
Proof.
  induction fuel as [|f IH]; intros c idx pt r Hr Hrule;
    cbn [CwiseGrid.run]; [by intros ?%elem_of_nil|].
  destruct (CwiseGrid.hasNext c); [|by intros ?%elem_of_nil].
  cbn [fst]. intros [[= -> ->]|Hin]%elem_of_cons.
  { split; [done|]. intros i Hi. by rewrite Hrule. }
  destruct (cwise_inc_frame d c Hr) as (H1 & H2 & H3 & H4 & H5).
  destruct (CwiseGrid.hasNext (CwiseGrid.inc d c)) eqn:Hn.
  2: { destruct f; cbn [CwiseGrid.run] in Hin; rewrite ?Hn in Hin;
       by apply elem_of_nil in Hin. }
  destruct (IH (CwiseGrid.inc d c) idx pt) as [Hrows Hco]; try done.
  - rewrite H1, H3. done.
  - rewrite H1. by apply H5.
  - rewrite Hrows, H1. split; [done|]. intros i Hi.
    rewrite H1 in Hco. rewrite (Hco i Hi).
    by rewrite (proj2 (cwise_inc_iter d c)).
Qed.

Lemma numPointsCwise_closed (np : point) it :
  make_upper np false = Some it →
  numPointsCwise it = (λ n, n + 1) <$> np.
Proof.
  intros Hm. apply reset_length in Hm as (Hl & _ & _ & Hu).
  unfold numPointsCwise. rewrite Hl, Hu. clear.
  induction np as [|n np IH]; [done|]. cbn. rewrite IH. f_equal. lia.
Qed.

(** What the constructor builds, and when it succeeds. *)
Lemma cwise_make_inv (cwise : list (CwiseGrid.gsMatrix T)) uninit c :
  CwiseGrid.make cwise uninit = Some c →
  ∃ it m0,
    make_upper ((λ m, CwiseGrid.rows m - 1) <$> cwise) false = Some it ∧
    CwiseGrid.coeffs m0 = uninit <$> seq 0 (length cwise) ∧
    (CwiseGrid.rows m0 = Z.of_nat (length cwise) ∨ CwiseGrid.rows m0 = 1) ∧
    cwise ≠ [] ∧
    c = CwiseGrid.update (CwiseGrid.Build cwise it m0).
Proof.
  unfold CwiseGrid.make. destruct (forallb _ cwise); [|done].
  destruct cwise as [|front rest]; [done|].
  destruct (make_upper _ false) as [it|] eqn:Hit; [|done].
  cbn [mbind option_bind]. intros [= <-]. eexists it, _. split; [done|].
  split; [|split; [|split; [done|reflexivity]]].
  - by case_bool_decide.
  - case_bool_decide; [by left|by right].
Qed.

Lemma cwise_make_Some (cwise : list (CwiseGrid.gsMatrix T)) uninit :
  cwise ≠ [] →
  Forall (λ m, CwiseGrid.cols m = 1 ∨ CwiseGrid.rows m = 1) cwise →
  is_Some (CwiseGrid.make cwise uninit).
Proof.
  intros Hne Hshape. unfold CwiseGrid.make.
  assert (forallb (λ m, bool_decide (CwiseGrid.cols m = 1)
                        || bool_decide (CwiseGrid.rows m = 1)) cwise = true) as ->.
  { apply forallb_forall. intros m Hm.
    rewrite Forall_forall in Hshape. specialize (Hshape m Hm).
    apply orb_true_iff. rewrite !bool_decide_eq_true. done. }
  destruct cwise as [|front rest]; [done|].
  destruct (make_upper _ false) as [it|] eqn:Hit; [by eexists|].
  unfold make_upper, reset in Hit.
  rewrite bool_decide_eq_true_2 in Hit by (by rewrite length_replicate).
  done.
Qed.

Lemma cwise_initial_rows (cwise : list (CwiseGrid.gsMatrix T))
    (m0 : CwiseGrid.gsMatrix T) uninit :
  cwise ≠ [] →
  CwiseGrid.coeffs m0 = uninit <$> seq 0 (length cwise) →
  CwiseGrid.rows m0 = Z.of_nat (length cwise) ∨ CwiseGrid.rows m0 = 1 →
  (Z.to_nat (CwiseGrid.rows m0) ≤ length (CwiseGrid.coeffs m0))%nat.
Proof.
  intros Hne -> Hrows. rewrite length_fmap, length_seq.
  destruct cwise; [done|]. cbn [length] in *. lia.
Qed.

End CwiseProps.

(** ** Mode 2: the traversal visits vertices *)

Lemma is_vertex_cons c cs l ls u us :
  is_vertex (c :: cs) (l :: ls) (u :: us)
  ↔ (c = l ∨ c = u) ∧ is_vertex cs ls us.
Proof.
  unfold is_vertex. split.
  - intros Hv. split.
    + destruct (Hv 0%nat c eq_refl) as [[= ->]|[= ->]]; auto.
    + intros i x Hx. apply (Hv (S i) x Hx).
  - intros [Hc Hv] [|i] x; simpl.
    + intros [= <-]. destruct Hc as [->| ->]; auto.
    + apply Hv.
Qed.

Lemma cube_step_vertex cur : ∀ low upp,
  in_box cur low upp → is_vertex cur low upp →
  is_vertex (cube_step VERTEX cur low upp).1 low upp.
Proof.
  induction cur as [|c cs IH]; intros [|l ls] [|u us] Hb Hv; box_inv Hb;
    [done|]. apply is_vertex_cons in Hv as [Hc Hv]. cbn [cube_step].
  case_bool_decide; cbn [fst]; apply is_vertex_cons; auto.
Qed.

Lemma is_vertex_low low : ∀ upp, length upp = length low → is_vertex low low upp.
Proof.
  induction low as [|l ls IH]; intros [|u us] Hlen; try done.
  apply is_vertex_cons. split; [by left|]. apply IH. simpl in Hlen. lia.
Qed.

Lemma run_vertex d fuel : ∀ it p,
  running d it → is_vertex (m_cur it) (m_low it) (m_upp it) →
  p ∈ (run VERTEX d fuel it).1 → is_vertex p (m_low it) (m_upp it).
Proof.
  induction fuel as [|f IH]; intros it p Hr Hv; cbn [run];
    [by intros ?%elem_of_nil|].
  rewrite (running_hasNext _ _ Hr). cbn [fst snd].
  intros [->|Hin]%elem_of_cons; [done|].
  destruct (step VERTEX (m_cur it) (m_low it) (m_upp it)).2 eqn:Hs.
  - rewrite run_done in Hin by eauto using running_done. by apply elem_of_nil in Hin.
  - destruct (running_step _ _ _ Hr Hs) as (Hr' & Hl & Hu & Hc & _).
    rewrite <- Hl, <- Hu. apply IH; [done| |done].
    rewrite Hl, Hu, Hc. destruct Hr as (_ & _ & _ & Hb).
    by apply cube_step_vertex.
Qed.

(** On a box without degenerate axis a step adds one to the rank. *)
Lemma cube_step_vertex_rank cur : ∀ low upp,
  in_box cur low upp → Forall2 Z.lt low upp →
  (cube_step VERTEX cur low upp).2 = false →
  vertex_rank (cube_step VERTEX cur low upp).1 upp = vertex_rank cur upp + 1.
Proof.
  induction cur as [|c cs IH]; intros [|l ls] [|u us] Hb Hlt; box_inv Hb;
    [done|]. inversion Hlt; subst. cbn [cube_step].
  case_bool_decide as Hcu; cbn [fst snd vertex_rank mode_value].
  - intros _. rewrite (bool_decide_eq_false_2 (0 = 2)) by done.
    rewrite (bool_decide_eq_true_2 (u = u)) by done.
    rewrite (bool_decide_eq_false_2 (c = u)) by done. lia.
  - intros Hd. rewrite (IH _ _ Hb) by done.
    rewrite (bool_decide_eq_false_2 (l = u)) by lia.
    rewrite (bool_decide_eq_true_2 (c = u)) by (by destruct (decide (c = u))).
    lia.
Qed.

Lemma vertex_rank_low low : ∀ upp, Forall2 Z.lt low upp → vertex_rank low upp = 0.
Proof.
  induction low as [|l ls IH]; intros [|u us] Hlt; try done.
  inversion Hlt; subst. cbn [vertex_rank].
  rewrite bool_decide_eq_false_2 by lia. rewrite IH by done. lia.
Qed.

Lemma vertex_rank_upp upp : vertex_rank upp upp = 2 ^ Z.of_nat (length upp) - 1.
Proof.
  induction upp as [|u us IH]; [done|]. cbn [vertex_rank length].
  rewrite bool_decide_eq_true_2 by done. rewrite IH.
  rewrite Nat2Z.inj_succ, Z.pow_succ_r by lia. lia.
Qed.

Lemma run_vertex_count d fuel : ∀ it,
  running d it → Forall2 Z.lt (m_low it) (m_upp it) →
  volume (m_low it) (m_upp it) - flat (m_cur it) (m_low it) (m_upp it)
  ≤ Z.of_nat fuel →
  Z.of_nat (length (run VERTEX d fuel it).1)
  = 2 ^ Z.of_nat (length (m_upp it)) - vertex_rank (m_cur it) (m_upp it).
Proof.
  induction fuel as [|f IH]; intros it Hr Hlt Hm.
  { destruct Hr as (_ & _ & _ & Hb). apply flat_bounds in Hb. lia. }
  cbn [run]. rewrite (running_hasNext _ _ Hr). cbn [fst snd length].
  destruct (step VERTEX (m_cur it) (m_low it) (m_upp it)).2 eqn:Hs.
  - rewrite run_done by eauto using running_done. cbn [fst snd length].
    destruct Hr as (_ & _ & _ & Hb).
    apply step_done in Hs as ->; [|done..]. rewrite vertex_rank_upp. lia.
  - destruct (running_step _ _ _ Hr Hs) as (Hr' & Hl & Hu & Hc & Hflat).
    rewrite Nat2Z.inj_succ, IH; rewrite ?Hl, ?Hu; [|done..|lia].
    rewrite Hc. destruct Hr as (_ & _ & _ & Hb).
    pose proof (cube_step_vertex_rank _ _ _ Hb Hlt Hs) as Hrank.
    cbn [step] in *. lia.
Qed.

(** Mode 2 on any non-empty box emits vertices only, each once; on a box
    without degenerate axis ([low[i] < upp[i]] everywhere) it emits [2^d]
    points, the value of [numPoints()]. *)
Lemma vertex_traverse d low upp :
  dim_ok d (length low) → low ≠ [] → Forall2 Z.le low upp →
  let it := Build low upp low (Z.of_nat (length low)) in
  hasNext (exhaust VERTEX d it) = false ∧
  NoDup (traverse VERTEX d it) ∧
  (∀ p, p ∈ traverse VERTEX d it → in_box p low upp ∧ is_vertex p low upp) ∧
  (Forall2 Z.lt low upp →
   Z.of_nat (length (traverse VERTEX d it)) = 2 ^ Z.of_nat (length low) ∧
   numPoints VERTEX it = Some (Z.of_nat (length (traverse VERTEX d it)))).
Proof.
  intros Hd Hne Hle it.
  pose proof (closed_running d low upp Hd Hne Hle) as Hr. fold it in Hr.
  assert (length upp = length low) as Hlen by (symmetry; by eapply Forall2_length).
  split; [by apply traverse_exhausts|].
  split; [by apply run_NoDup|]. split.
  - intros p Hin. split.
    + by apply (traverse_in_box VERTEX d it p Hr).
    + apply (run_vertex d (box_size it) it p Hr); [|exact Hin].
      by apply is_vertex_low.
  - intros Hlt.
    pose proof (run_vertex_count d (box_size it) it Hr Hlt (running_fuel d it Hr))
      as Hcount.
    cbn [it m_low m_upp m_cur] in Hcount.
    rewrite vertex_rank_low, Z.sub_0_r, Hlen in Hcount by done.
    unfold traverse, numPoints. cbn [m_low it]. rewrite Hcount.
    by rewrite Z.shiftl_1_l.
Qed.

(** ** Mode 1: the number of boundary points

    On a box without axis of extent 1 the boundary points are the points of
    the box that are not in the inner box [[low + 1, upp - 1]]. *)

Lemma interior_box p : ∀ low upp,
  in_box p low upp ∧ any_eq p low || any_eq p upp = false
  ↔ in_box p ((λ x, x + 1) <$> low) ((λ x, x - 1) <$> upp).
Proof.
  induction p as [|c cs IH]; intros [|l ls] [|u us];
    try (split; [intros [Hb _]|intros Hb]; exfalso;
         apply in_box_length in Hb; simpl in Hb; lia).
  - split; [intros _; apply in_box_nil|]. intros _. split; [apply in_box_nil|done].
  - cbn [fmap list_fmap]. rewrite !in_box_cons, !any_eq_cons, <- IH.
    rewrite !orb_false_iff, !bool_decide_eq_false. split.
    + intros ((Hc & ?) & (? & ?) & ? & ?).
      split; [lia|]. split; [done|]. by split.
    + intros (Hc & ? & ? & ?).
      split; [split; [lia|done]|]. split; [split; [lia|done]|]. split; [lia|done].
Qed.

Lemma inner_volume low : ∀ upp,
  volume ((λ x, x + 1) <$> low) ((λ x, x - 1) <$> upp)
  = prod (zip_with (λ u l, u - l - 1) upp low).
Proof.
  induction low as [|l ls IH]; intros [|u us]; try done.
  cbn [fmap list_fmap]. rewrite volume_cons, IH.
  cbn [zip_with prod foldr]. f_equal. lia.
Qed.

Lemma no_inner_box low upp :
  Forall2 Z.lt low upp →
  ¬ Forall2 Z.le ((λ x, x + 1) <$> low) ((λ x, x - 1) <$> upp) →
  prod (zip_with (λ u l, u - l - 1) upp low) = 0.
Proof.
  induction 1 as [|l u ls us Hlu Hlt IH]; intros Hn.
  - destruct Hn. constructor.
  - cbn [zip_with prod foldr].
    destruct (decide (l + 1 ≤ u - 1)) as [Hle|Hle].
    + fold (prod (zip_with (λ u l, u - l - 1) us ls)).
      rewrite IH; [lia|]. intros Htl. apply Hn. by constructor.
    + replace (u - l - 1) with 0 by lia. lia.
Qed.

Lemma Forall2_le_trans (a b c : point) :
  Forall2 Z.le a b → Forall2 Z.le b c → Forall2 Z.le a c.
Proof.
  intros Hab. revert c. induction Hab; intros c Hbc; inversion Hbc; subst;
    constructor; [lia|auto].
Qed.

(** A count that fits [index_t] is returned as it is. *)
Lemma wrap_fits z : 0 ≤ z ≤ index_max → wrap z = z.
Proof.
  unfold wrap, index_max, index_bits.
  change (2 ^ (32 - 1)) with 2147483648. change (2 ^ 32) with 4294967296.
  intros Hz. rewrite Z.mod_small; lia.
Qed.

Lemma cube_traverse_closed d low upp :
  dim_ok d (length low) → low ≠ [] → Forall2 Z.le low upp →
  let it := Build low upp low (Z.of_nat (length low)) in
  NoDup (traverse CUBE d it) ∧
  (∀ p, p ∈ traverse CUBE d it ↔ in_box p low upp) ∧
  Z.of_nat (length (traverse CUBE d it)) = volume low upp.
Proof.
  intros Hd Hne Hle it.
  pose proof (closed_running d low upp Hd Hne Hle) as Hr. fold it in Hr.
  split; [by apply run_NoDup|]. split.
  - intros p. by apply (cube_traverse_exact d it p Hr).
  - destruct (run_cube_flat d (box_size it) it Hr (running_fuel d it Hr)) as [Hlen _].
    cbn [it m_low m_upp m_cur] in Hlen. rewrite flat_low in Hlen.
    unfold traverse. fold it. lia.
Qed.

(** On a box of dimension at least one in which every axis has at least
    two points, mode 1 emits [prod(upp-low+1) - prod(upp-low-1)] points,
    the value of [numPoints()] when the number of points of the box fits
    [index_t]. *)
Lemma bdr_count d low upp :
  dim_ok d (length low) → low ≠ [] → Forall2 Z.lt low upp →
  let it := Build low upp low (Z.of_nat (length low)) in
  Z.of_nat (length (traverse BDR d it))
  = prod (zip_with (λ u l, u - l + 1) upp low)
    - prod (zip_with (λ u l, u - l - 1) upp low) ∧
  (prod (zip_with (λ u l, u - l + 1) upp low) ≤ index_max →
   numPoints BDR it = Some (Z.of_nat (length (traverse BDR d it)))).
Proof.
  intros Hd Hne Hlt it.
  assert (Forall2 Z.le low upp) as Hle.
  { clear Hd Hne it. induction Hlt; constructor; [lia|done]. }
  destruct (cube_traverse_closed d low upp Hd Hne Hle) as (Hcnd & Hcel & Hclen).
  fold it in Hcnd, Hcel, Hclen.
  pose proof (closed_running d low upp Hd Hne Hle) as Hr. fold it in Hr.
  set (P := λ p : point, any_eq p low || any_eq p upp = true).
  assert (traverse BDR d it ≡ₚ filter P (traverse CUBE d it)) as Hperm.
  { apply list.NoDup_Permutation.
    - by apply run_NoDup.
    - by apply list.NoDup_filter.
    - intros p. rewrite list_elem_of_filter, Hcel.
      unfold it. rewrite (bdr_traverse_exact d low upp p Hd Hne Hle).
      rewrite on_boundary_spec. unfold P. tauto. }
  assert (Z.of_nat (length (filter (λ p, ¬ P p) (traverse CUBE d it)))
          = prod (zip_with (λ u l, u - l - 1) upp low)) as Hint.
  { destruct (decide (Forall2 Z.le ((λ x, x + 1) <$> low) ((λ x, x - 1) <$> upp)))
      as [Hin|Hin].
    - destruct (cube_traverse_closed d ((λ x, x + 1) <$> low) ((λ x, x - 1) <$> upp))
        as (Hind & Hiel & Hilen); [by rewrite length_fmap|by destruct low|done|].
      rewrite <- inner_volume, <- Hilen. f_equal. apply Permutation_length.
      apply list.NoDup_Permutation; [by apply list.NoDup_filter|done|].
      intros p. rewrite list_elem_of_filter, Hcel, Hiel, <- interior_box.
      unfold P. rewrite not_true_iff_false. tauto.
    - rewrite (no_inner_box low upp Hlt Hin).
      destruct (filter (λ p, ¬ P p) (traverse CUBE d it)) as [|p rest] eqn:Hf;
        [done|]. exfalso.
      assert (p ∈ filter (λ p, ¬ P p) (traverse CUBE d it)) as Hp
        by (rewrite Hf; by left).
      apply list_elem_of_filter in Hp as [HnP Hp]. apply Hcel in Hp.
      unfold P in HnP. apply not_true_iff_false in HnP.
      destruct (proj1 (interior_box p low upp) (conj Hp HnP)) as [H1 H2].
      apply Hin. by eapply Forall2_le_trans. }
  pose proof (filter_app_complement P (traverse CUBE d it)) as Hsplit.
  apply Permutation_length in Hsplit, Hperm. rewrite length_app in Hsplit.
  assert (Z.of_nat (length (traverse BDR d it))
          = prod (zip_with (λ u l, u - l + 1) upp low)
            - prod (zip_with (λ u l, u - l - 1) upp low)) as Hcount.
  { unfold volume in Hclen. lia. }
  split; [done|]. intros Hfit. unfold numPoints. cbn [it m_low m_upp].
  rewrite <- Hcount. f_equal. apply wrap_fits. unfold volume in Hclen. lia.
Qed.

(** * The specification, statement by statement *)

(** C5 (amended).  For every non-empty box ([low[i] <= upp[i]] on every
    axis) of dimension at least one, the full traversal of the mode-0
    iterator terminates and emits exactly [prod (upp[i] - low[i] + 1)]
    points; [numPoints()] returns this count as an [index_t], so that it
    is the count whenever the count fits [index_t]. *)
Theorem C5_cube_count d low upp :
  dim_ok d (length low) → low ≠ [] → Forall2 Z.le low upp →
  ∃ it, make low upp false = Some it ∧
    hasNext (exhaust CUBE d it) = false ∧
    Z.of_nat (length (traverse CUBE d it))
    = prod (zip_with (λ u l, u - l + 1) upp low) ∧
    numPoints CUBE it = Some (wrap (Z.of_nat (length (traverse CUBE d it)))) ∧
    (prod (zip_with (λ u l, u - l + 1) upp low) ≤ index_max →
     numPoints CUBE it = Some (Z.of_nat (length (traverse CUBE d it)))).
Proof.
  intros Hd Hne Hle. eexists. split; [by apply make_closed|].
  pose proof (closed_running d low upp Hd Hne Hle) as Hr.
  split; [by apply traverse_exhausts|].
  destruct (cube_traverse_closed d low upp Hd Hne Hle) as (_ & _ & Hlen).
  unfold volume in Hlen. rewrite Hlen.
  split; [done|]. split; [done|].
  intros Hfit. unfold numPoints. cbn [m_low m_upp]. f_equal.
  apply wrap_fits. lia.
Qed.

Lemma C5_cube_count_witness :
  ∃ it, make [0; 0] [2; 3] false = Some it ∧
    hasNext (exhaust CUBE (-1) it) = false ∧
    Z.of_nat (length (traverse CUBE (-1) it))
    = prod (zip_with (λ u l, u - l + 1) [2; 3] [0; 0]) ∧
    numPoints CUBE it
    = Some (wrap (Z.of_nat (length (traverse CUBE (-1) it)))) ∧
    (prod (zip_with (λ u l, u - l + 1) [2; 3] [0; 0]) ≤ index_max →
     numPoints CUBE it = Some (Z.of_nat (length (traverse CUBE (-1) it)))).
Proof.
  apply (C5_cube_count (-1) [0; 0] [2; 3]).
  - by left.
  - discriminate.
  - repeat constructor; lia.
Defined.

(** C5, as stated, fails on two kinds of boxes.  On the box with zero
    rows the conditions [low[i] <= upp[i]] hold, [m_dim = 0] makes the
    iterator convert to false at once, so that no point is emitted, and
    the empty products are 1.  On [low = [0,0]], [upp = [65535,65535]] the
    box has [2^32] points and [numPoints()] returns 0. *)
Lemma C5_counterexample_zero_rows_and_overflow :
  ¬ (∃ it, make [] [] false = Some it ∧
       Z.of_nat (length (traverse CUBE (-1) it))
       = prod (zip_with (λ u l, u - l + 1) [] []) ∧
       numPoints CUBE it = Some (Z.of_nat (length (traverse CUBE (-1) it)))) ∧
  ¬ (∃ it, make [0; 0] [65535; 65535] false = Some it ∧
       Z.of_nat (length (traverse CUBE (-1) it))
       = prod (zip_with (λ u l, u - l + 1) [65535; 65535] [0; 0]) ∧
       numPoints CUBE it = Some (Z.of_nat (length (traverse CUBE (-1) it)))).
Proof.
  split.
  - intros (it & Hmake & Hlen & _). injection Hmake as <-.
    vm_compute in Hlen. discriminate.
  - intros (it & Hmake & Hlen & Hnum).
    set (n := Z.of_nat (length (traverse CUBE (-1) it))) in *. clearbody n.
    vm_compute in Hmake. injection Hmake as <-. subst n.
    vm_compute in Hnum. discriminate.
Qed.



(** C1.  For every non-empty box in which every axis extent
    [upp[i] - low[i] + 1] is at least 2, the full traversal of the mode-1
    iterator terminates and emits, without repetition, exactly the lattice
    points of [[low, upp]] that have a coordinate equal to [low[i]] or to
    [upp[i]]; for [low = [0,0]], [upp = [2,2]] these are the 8 perimeter
    points of the 3x3 grid, without [(1,1)].  [isBoundary()] holds at every
    emitted point. *)
Theorem C1_boundary_traversal d low upp :
  dim_ok d (length low) →
  Forall2 (λ l u, 2 ≤ u - l + 1) low upp →
  ∃ it, make low upp false = Some it ∧
    hasNext (exhaust BDR d it) = false ∧
    NoDup (traverse BDR d it) ∧
    (∀ p, p ∈ traverse BDR d it ↔ in_box p low upp ∧ on_boundary p low upp) ∧
    (∀ p, p ∈ traverse BDR d it → isBoundary (set_cur it p) = true) ∧
    (low = [0; 0] → upp = [2; 2] →
     traverse BDR d it
     = [[0; 0]; [1; 0]; [2; 0]; [0; 1]; [2; 1]; [0; 2]; [1; 2]; [2; 2]]).
Proof.
  intros Hd Hext.
  assert (Forall2 Z.le low upp) as Hle.
  { clear Hd. induction Hext; [constructor|constructor; [lia|done]]. }
  eexists. split; [by apply make_closed|].
  destruct (decide (low = [])) as [->|Hne].
  { inversion Hle; subst. split; [done|]. split; [constructor|].
    split; [|split; [by intros p ?%elem_of_nil|done]].
    intros p. split; [by intros ?%elem_of_nil|].
    intros [_ (i & c & _ & [?|?])]; done. }
  pose proof (closed_running d low upp Hd Hne Hle) as Hr.
  split; [by apply traverse_exhausts|].
  split; [by apply run_NoDup|].
  split; [intros p; by apply bdr_traverse_exact|].
  split.
  - intros p Hin. apply (bdr_traverse_exact d low upp p Hd Hne Hle) in Hin as [_ Hbd].
    by apply on_boundary_spec.
  - intros -> ->. destruct Hd as [->| ->]; by vm_compute.
Qed.

Lemma C1_boundary_traversal_witness :
  ∃ it, make [0; 0] [2; 2] false = Some it ∧
    hasNext (exhaust BDR (-1) it) = false ∧
    NoDup (traverse BDR (-1) it) ∧
    (∀ p, p ∈ traverse BDR (-1) it
          ↔ in_box p [0; 0] [2; 2] ∧ on_boundary p [0; 0] [2; 2]) ∧
    (∀ p, p ∈ traverse BDR (-1) it → isBoundary (set_cur it p) = true) ∧
    ([0; 0] = [0; 0] → [2; 2] = [2; 2] →
     traverse BDR (-1) it
     = [[0; 0]; [1; 0]; [2; 0]; [0; 1]; [2; 1]; [0; 2]; [1; 2]; [2; 2]]).
Proof.
  apply (C1_boundary_traversal (-1) [0; 0] [2; 2]).
  - by left.
  - repeat constructor; lia.
Defined.

(** C2.  The emitted count of mode 1 against [numPoints()] on a box with an
    axis of extent 1: on [low = [0,0]], [upp = [3,0]] the traversal emits
    the 4 points of the box, while the interior term of [numPoints()] is
    [2 * (-1) = -2] and [numPoints()] is 6; on the one-point box
    [low = upp = [0]] one point is emitted and [numPoints()] is 2. *)
Theorem C2_bdr_numPoints_extent_one :
  (∃ it, make [0; 0] [3; 0] false = Some it ∧
     hasNext (exhaust BDR (-1) it) = false ∧
     traverse BDR (-1) it = [[0; 0]; [1; 0]; [2; 0]; [3; 0]] ∧
     prod (zip_with (λ u l, u - l + 1) (m_upp it) (m_low it)) = 4 ∧
     prod (zip_with (λ u l, u - l - 1) (m_upp it) (m_low it)) = -2 ∧
     numPoints BDR it = Some 6) ∧
  (∃ it, make [0] [0] false = Some it ∧
     hasNext (exhaust BDR (-1) it) = false ∧
     traverse BDR (-1) it = [[0]] ∧
     numPoints BDR it = Some 2).
Proof. split; eexists; (split; [reflexivity|]); by vm_compute. Qed.

(** ** The bound tests

    [isFloor(i)] holds exactly when the [i]-th coordinate equals
    [m_low[i]], in every mode; [isCeil(i)] holds exactly when it equals
    [m_upp[i]] in the modes 1 and 2. *)
Lemma isFloor_spec it i :
  isFloor it i = true ↔ m_cur it !!! i = m_low it !!! i.
Proof. apply bool_decide_eq_true. Qed.

Lemma isCeil_spec mode it i :
  mode ≠ CUBE →
  isCeil mode it i = true ↔ m_cur it !!! i = m_upp it !!! i.
Proof.
  intros Hm. unfold isCeil. rewrite bool_decide_eq_true_2 by (by destruct mode).
  apply bool_decide_eq_true.
Qed.

(** C4.  In mode 0 [isCeil] is not the test of the upper bound.  On the box [[0, 2]] the mode-0 iterator visits 0, 1, 2; at
    the point 1 [isCeil(0)] is true although the coordinate is below
    [m_upp[0] = 2], and at the point 2 it is false although the coordinate
    equals [m_upp[0]]: the test is [m_cur[i] + 1 == m_upp[i]]. *)
Theorem C4_isCeil_cube_off_by_one :
  ∃ it0, make [0] [2] false = Some it0 ∧
    let it1 := inc CUBE (-1) it0 in
    let it2 := inc CUBE (-1) it1 in
    hasNext it1 = true ∧ m_cur it1 = [1] ∧ m_upp it1 = [2] ∧
    isCeil CUBE it1 0 = true ∧
    hasNext it2 = true ∧ m_cur it2 = [2] ∧ m_upp it2 = [2] ∧
    isCeil CUBE it2 0 = false ∧
    (∀ it i, isCeil CUBE it i = true ↔ m_cur it !!! i + 1 = m_upp it !!! i).
Proof.
  eexists. split; [reflexivity|]. repeat (split; [by vm_compute|]).
  intros it i. apply bool_decide_eq_true.
Qed.

(** The sample iterator of mode 0 inherits the test: with three samples on
    [[0, 1]] the middle one is stored as [b], and the last one is computed
    as [a + 2 * step]. *)
Lemma uniform_cube_ceiling_shifted :
  ∃ u, UniformGrid.make [0#1]%Q [1#1]%Q [3] = Some u ∧
    UniformGrid.m_step u = [1#2]%Q ∧
    UniformGrid.traverse_indexed CUBE (-1) u
    = [([0], [0#1]%Q); ([1], [1#1]%Q); ([2], [2#2]%Q)].
Proof. eexists. split; [reflexivity|]. by vm_compute. Qed.

(** C6.  The emitted count of mode 2 against [numPoints()] on a box with a
    degenerate axis: on the one-point box [low = upp = [0]] the traversal
    emits one point, [numPoints()] is [1 << 1 = 2]; on [low = [0,0]],
    [upp = [2,0]] it emits two points, [numPoints()] is 4.  On
    [low = [0,0]], [upp = [2,2]] it emits the four corners. *)
Theorem C6_vertex_numPoints_degenerate :
  (∃ it, make [0] [0] false = Some it ∧
     hasNext (exhaust VERTEX (-1) it) = false ∧
     traverse VERTEX (-1) it = [[0]] ∧
     numPoints VERTEX it = Some 2) ∧
  (∃ it, make [0; 0] [2; 0] false = Some it ∧
     hasNext (exhaust VERTEX (-1) it) = false ∧
     traverse VERTEX (-1) it = [[0; 0]; [2; 0]] ∧
     numPoints VERTEX it = Some 4) ∧
  (∃ it, make [0; 0] [2; 2] false = Some it ∧
     hasNext (exhaust VERTEX (-1) it) = false ∧
     traverse VERTEX (-1) it = [[0; 0]; [2; 0]; [0; 2]; [2; 2]] ∧
     numPoints VERTEX it = Some 4).
Proof. repeat split; eexists; (split; [reflexivity|]); by vm_compute. Qed.

(** C9.  Constructing or resetting the lattice iterator on an empty box
    ([low[i] > upp[i]] on some axis, after the shift of the open case) does
    not fail; the iterator converts to false at once, the traversal emits
    no point, and [reset()] leaves it so. *)
Theorem C9_empty_box (a b : point) (open : bool) (i : nat) (l u : Z) :
  length a = length b →
  a !! i = Some l →
  (if open then (λ x, x - 1) <$> b else b) !! i = Some u →
  u < l →
  ∃ it, make a b open = Some it ∧ reset a b open = Some it ∧
    hasNext it = false ∧
    (∀ mode d fuel, (run mode d fuel it).1 = []) ∧
    ∃ it', reset0 it = Some it' ∧ hasNext it' = false.
Proof.
  intros Hlen Ha Hb Hul.
  set (upp := if open then (λ x, x - 1) <$> b else b) in *.
  assert (¬ Forall2 Z.le a upp) as Hn.
  { intros Hle. pose proof (Forall2_lookup_lr _ _ _ _ _ _ Hle Ha Hb). lia. }
  assert (reset a b open = Some (Build a upp a 0)) as Hreset.
  { unfold reset. rewrite bool_decide_eq_true_2 by done. fold upp.
    by rewrite (bool_decide_eq_false_2 _ Hn). }
  exists (Build a upp a 0). split; [done|]. split; [done|]. split; [done|].
  split; [intros mode d fuel; by rewrite run_done|].
  exists (Build a upp a 0). split; [|done].
  unfold reset0, reset. cbn [m_low m_upp].
  rewrite bool_decide_eq_true_2.
  - by rewrite (bool_decide_eq_false_2 _ Hn).
  - subst upp. destruct open; rewrite ?length_fmap; done.
Qed.

Lemma C9_empty_box_witness :
  ∃ it, make [0; 0] [3; 0] true = Some it ∧ reset [0; 0] [3; 0] true = Some it ∧
    hasNext it = false ∧
    (∀ mode d fuel, (run mode d fuel it).1 = []) ∧
    ∃ it', reset0 it = Some it' ∧ hasNext it' = false.
Proof.
  apply (C9_empty_box [0; 0] [3; 0] true 1 0 (-1)).
  - reflexivity.
  - reflexivity.
  - reflexivity.
  - lia.
Defined.

(** C3 (amended).  For the uniform sample iterator with sample counts
    [np[i] >= 1] on at least one axis: the traversal terminates; on every
    emitted point the lattice index of axis [i] lies in [[0, np[i]-1]] and
    the [i]-th coordinate is [a[i]] when the lattice index is 0; in the
    modes 1 and 2 it is [b[i]] when the lattice index is [np[i]-1] and
    [np[i] >= 2], and [a[i] + latticeIndex[i] * step[i]] when
    [0 < latticeIndex[i] < np[i]-1], where
    [step[i] = (b[i] - a[i]) / max(np[i] - 1, 1)].  The first emitted sample is [a]; the
    last one has the lattice index [np - 1], its [i]-th coordinate is
    [a[i]] on an axis with [np[i] = 1] and, in the modes 1 and 2, [b[i]] on
    an axis with [np[i] >= 2]. *)
Theorem C3_uniform_samples {T : Type} `{Scalar T} mode d (a b : list T) np u :
  mode ≠ CWISE → dim_ok d (length np) →
  length a = length np → length b = length np →
  Forall (λ n, 1 ≤ n) np → np ≠ [] →
  UniformGrid.make a b np = Some u →
  UniformGrid.hasNext (UniformGrid.exhaust mode d u) = false ∧
  (∀ i : nat, (i < length np)%nat →
     UniformGrid.m_step u !!! i
     = scalar_div (scalar_sub (b !!! i) (a !!! i))
         (scalar_cast (Z.max (np !!! i - 1) 1))) ∧
  (∀ idx p (i : nat),
     (idx, p) ∈ UniformGrid.traverse_indexed mode d u → (i < length np)%nat →
     0 ≤ idx !!! i ≤ np !!! i - 1 ∧
     (idx !!! i = 0 → p !!! i = a !!! i) ∧
     (mode ≠ CUBE → 2 ≤ np !!! i → idx !!! i = np !!! i - 1 →
      p !!! i = b !!! i) ∧
     (mode ≠ CUBE → 0 < idx !!! i < np !!! i - 1 →
      p !!! i = scalar_add (a !!! i)
                  (scalar_mul (scalar_cast (idx !!! i))
                              (UniformGrid.m_step u !!! i)))) ∧
  (∃ rest, UniformGrid.traverse_indexed mode d u
           = (replicate (length np) 0, a) :: rest) ∧
  (∃ p, list.last (UniformGrid.traverse_indexed mode d u)
        = Some ((λ n, n - 1) <$> np, p) ∧
     length p = length np ∧
     ∀ i : nat, (i < length np)%nat →
       (np !!! i = 1 → p !!! i = a !!! i) ∧
       (mode ≠ CUBE → 2 ≤ np !!! i → p !!! i = b !!! i)).
Proof.
  intros Hm Hd Ha Hb Hnp Hne Hmake.
  destruct (uniform_make _ _ _ _ Hmake) as (it & Hit & ->).
  pose proof (make_upper_bounds _ _ _ Hit) as (Hlo & Hcu & Hup).
  pose proof (make_upper_open_hasNext _ _ Hnp Hne Hit) as Hn.
  pose proof (make_upper_running d _ _ _ Hd Hit Hn) as Hr.
  set (u := UniformGrid.Build a b _ it a) in *.
  destruct (uniform_run_iter mode d (box_size it) u) as (Hidx & Hiter & _).
  assert (UniformGrid.hasNext (UniformGrid.exhaust mode d u) = false) as Hex.
  { unfold UniformGrid.exhaust, UniformGrid.hasNext. cbn [UniformGrid.m_iter u].
    rewrite Hiter. apply (traverse_exhausts mode d it). by intros _. }
  assert (∀ idx p (i : nat),
     (idx, p) ∈ UniformGrid.traverse_indexed mode d u → (i < length np)%nat →
     length p = length np ∧
     0 ≤ idx !!! i ≤ np !!! i - 1 ∧
     (idx !!! i = 0 → p !!! i = a !!! i) ∧
     (mode ≠ CUBE → 2 ≤ np !!! i → idx !!! i = np !!! i - 1 →
      p !!! i = b !!! i) ∧
     (mode ≠ CUBE → 0 < idx !!! i < np !!! i - 1 →
      p !!! i = scalar_add (a !!! i)
                  (scalar_mul (scalar_cast (idx !!! i))
                              (UniformGrid.m_step u !!! i)))) as Hpt.
  { intros idx p i Hin Hi.
    assert (in_box idx (m_low it) (m_upp it)) as Hbox.
    { apply (traverse_in_box mode d it idx Hr). unfold traverse.
      cbn [UniformGrid.m_iter u] in Hidx. rewrite <- Hidx.
      by apply (list_elem_of_fmap_2 fst _ (idx, p)). }
    pose proof (in_box_lookup _ _ _ i Hbox) as Hrange.
    rewrite Hlo, Hup, pred_lookup, lookup_total_replicate_2 in Hrange
      by (rewrite ?length_replicate; lia).
    specialize (Hrange ltac:(apply in_box_length in Hbox as [Hl _];
      rewrite Hlo, length_replicate in Hl; lia)).
    destruct (uniform_reachable mode d (box_size it) u idx p) as
      (u' & H1 & H2 & H3 & H4 & H5 & H6 & H7 & H8 & H9); try done.
    { cbn [u UniformGrid.m_low]. by rewrite Ha. }
    { intros j Hj. unfold UniformGrid.coordinate, isFloor.
      cbn [u UniformGrid.m_low UniformGrid.m_iter UniformGrid.m_cur].
      by rewrite Hcu, Hlo, bool_decide_eq_true_2. }
    cbn [u UniformGrid.m_low UniformGrid.m_upp UniformGrid.m_step
         UniformGrid.m_iter] in *.
    split; [lia|]. split; [done|].
    rewrite (H9 i) by lia. unfold UniformGrid.coordinate, isFloor, isCeil.
    unfold UniformGrid.tensorIndex in H6.
    rewrite H1, H2, H3, H4, H5, H6, Hlo, Hup, pred_lookup,
      lookup_total_replicate_2 by lia.
    split; [|split].
    - intros Hz. by rewrite bool_decide_eq_true_2.
    - intros Hmode Hge Hc. rewrite bool_decide_eq_false_2 by lia.
      rewrite (bool_decide_eq_true_2 (mode_value mode ≠ 0)) by (by destruct mode).
      by rewrite bool_decide_eq_true_2.
    - intros Hmode Hc. rewrite bool_decide_eq_false_2 by lia.
      rewrite (bool_decide_eq_true_2 (mode_value mode ≠ 0)) by (by destruct mode).
      by rewrite bool_decide_eq_false_2 by lia. }
  assert (∃ rest, UniformGrid.traverse_indexed mode d u
                  = (replicate (length np) 0, a) :: rest) as [rest Hfirst].
  { unfold UniformGrid.traverse_indexed. cbn [UniformGrid.m_iter u].
    pose proof (running_fuel d it Hr) as Hfuel.
    destruct Hr as (_ & _ & _ & Hbx). apply flat_bounds in Hbx.
    destruct (box_size it) as [|f]; [lia|].
    cbn [UniformGrid.run]. unfold UniformGrid.hasNext.
    cbn [UniformGrid.m_iter u]. rewrite Hn. cbn [fst].
    unfold UniformGrid.tensorIndex. cbn [UniformGrid.m_iter UniformGrid.m_cur u].
    rewrite Hcu. eauto. }
  split; [done|].
  split; [intros i Hi; cbn [u UniformGrid.m_step]; by apply uniform_step_lookup|].
  split; [intros idx p i Hin Hi; by apply Hpt|].
  split; [eauto|].
  assert (list.last (UniformGrid.traverse_indexed mode d u).*1
          = Some ((λ n, n - 1) <$> np)) as Hlast.
  { unfold UniformGrid.traverse_indexed. cbn [UniformGrid.m_iter u].
    cbn [UniformGrid.m_iter u] in Hidx. rewrite Hidx, <- Hup.
    apply (run_last mode d); [done..|]. by apply (traverse_exhausts mode d it). }
  rewrite fmap_last in Hlast.
  destruct (list.last (UniformGrid.traverse_indexed mode d u)) as [[idx p]|] eqn:Hl;
    [|done].
  cbn in Hlast. injection Hlast as ->. exists p. split; [done|].
  apply last_Some_elem_of in Hl.
  assert (length p = length np) as Hlen.
  { destruct np as [|n np]; [done|]. apply (Hpt _ _ 0%nat Hl). simpl. lia. }
  split; [done|]. intros i Hi.
  destruct (Hpt _ _ i Hl Hi) as (_ & _ & Hfl & Hce & _).
  rewrite pred_lookup in Hfl, Hce by done.
  split; [intros Hone; apply Hfl; lia|]. intros Hmode Hge. by apply Hce.
Qed.

Lemma C3_uniform_samples_witness :
  ∃ u, UniformGrid.make [0#1; 0#1]%Q [1#1; 3#1]%Q [3; 1] = Some u ∧
  UniformGrid.hasNext (UniformGrid.exhaust BDR (-1) u) = false ∧
  (∀ i : nat, (i < 2)%nat →
     UniformGrid.m_step u !!! i
     = scalar_div (scalar_sub ([1#1; 3#1]%Q !!! i) ([0#1; 0#1]%Q !!! i))
         (scalar_cast (Z.max ([3; 1] !!! i - 1) 1))) ∧
  (∀ idx p (i : nat),
     (idx, p) ∈ UniformGrid.traverse_indexed BDR (-1) u → (i < 2)%nat →
     0 ≤ idx !!! i ≤ [3; 1] !!! i - 1 ∧
     (idx !!! i = 0 → p !!! i = [0#1; 0#1]%Q !!! i) ∧
     (BDR ≠ CUBE → 2 ≤ [3; 1] !!! i → idx !!! i = [3; 1] !!! i - 1 →
      p !!! i = [1#1; 3#1]%Q !!! i) ∧
     (BDR ≠ CUBE → 0 < idx !!! i < [3; 1] !!! i - 1 →
      p !!! i = scalar_add ([0#1; 0#1]%Q !!! i)
                  (scalar_mul (scalar_cast (idx !!! i))
                              (UniformGrid.m_step u !!! i)))) ∧
  (∃ rest, UniformGrid.traverse_indexed BDR (-1) u
           = (replicate 2 0, [0#1; 0#1]%Q) :: rest) ∧
  (∃ p, list.last (UniformGrid.traverse_indexed BDR (-1) u)
        = Some ((λ n, n - 1) <$> [3; 1], p) ∧
     length p = 2%nat ∧
     ∀ i : nat, (i < 2)%nat →
       ([3; 1] !!! i = 1 → p !!! i = [0#1; 0#1]%Q !!! i) ∧
       (BDR ≠ CUBE → 2 ≤ [3; 1] !!! i → p !!! i = [1#1; 3#1]%Q !!! i)).
Proof.
  eexists. split; [reflexivity|].
  apply (C3_uniform_samples BDR (-1) [0#1; 0#1]%Q [1#1; 3#1]%Q [3; 1]).
  - discriminate.
  - by left.
  - reflexivity.
  - reflexivity.
  - repeat constructor; lia.
  - discriminate.
  - reflexivity.
Defined.

(** C3, as stated, fails on an axis with a single sample: with [a = [0]],
    [b = [1]], [np = [1]] the only lattice index is 0, which is
    [np[0] - 1] as well; the emitted coordinate is [a[0]], not [b[0]], and
    the last emitted sample is [a], not [b]. *)
Lemma C3_counterexample_single_sample :
  ¬ (∀ u, UniformGrid.make [0#1]%Q [1#1]%Q [1] = Some u →
       ∀ idx p, (idx, p) ∈ UniformGrid.traverse_indexed VERTEX (-1) u →
         (idx !!! 0%nat = 0 → p !!! 0%nat = (0#1)%Q) ∧
         (idx !!! 0%nat = 1 - 1 → p !!! 0%nat = (1#1)%Q)) ∧
  ¬ (∀ u, UniformGrid.make [0#1]%Q [1#1]%Q [1] = Some u →
       list.last (UniformGrid.traverse VERTEX (-1) u) = Some [1#1]%Q).
Proof.
  split.
  - intros Hspec.
    destruct (Hspec _ eq_refl [0] [0#1]%Q) as [_ Hb].
    + vm_compute. by left.
    + specialize (Hb eq_refl). vm_compute in Hb. discriminate.
  - intros Hspec. specialize (Hspec _ eq_refl). vm_compute in Hspec.
    discriminate.
Qed.

(** C8.  For the lattice iterator in every mode and with either value of
    [open], for the uniform sample iterator and for the coordinate-wise
    iterator: the full traversal exhausts the iterator, [reset()] succeeds
    on the exhausted iterator, and the traversal after it emits the same
    sequence of points as the first one. *)
Theorem C8_reset_reproduces {T : Type} `{Scalar T} :
  (∀ mode d a b open it,
     dim_ok d (length a) → make a b open = Some it →
     hasNext (exhaust mode d it) = false ∧
     ∃ it', reset0 (exhaust mode d it) = Some it' ∧
            traverse mode d it' = traverse mode d it) ∧
  (∀ mode d (a b : list T) np u,
     dim_ok d (length np) → UniformGrid.make a b np = Some u →
     UniformGrid.hasNext (UniformGrid.exhaust mode d u) = false ∧
     ∃ u', UniformGrid.reset0 (UniformGrid.exhaust mode d u) = Some u' ∧
           UniformGrid.traverse mode d u' = UniformGrid.traverse mode d u) ∧
  (∀ d (cwise : list (CwiseGrid.gsMatrix T)) uninit c,
     dim_ok d (length cwise) → CwiseGrid.make cwise uninit = Some c →
     CwiseGrid.hasNext (CwiseGrid.exhaust d c) = false ∧
     ∃ c', CwiseGrid.reset0 (CwiseGrid.exhaust d c) = Some c' ∧
           CwiseGrid.traverse d c' = CwiseGrid.traverse d c).
Proof.
  split; [|split].
  - intros mode d a b open it Hd Hmake. split.
    + apply traverse_exhausts. intros Hn. by eapply reset_running.
    + exists it. split; [|done]. by eapply reset0_run.
  - intros mode d a b np u Hd Hmake.
    destruct (uniform_make _ _ _ _ Hmake) as (it & Hit & ->).
    set (u := UniformGrid.Build a b _ it a).
    destruct (uniform_run_iter mode d (box_size it) u) as (_ & Hiter & Hl & Hu & Hs).
    split.
    + unfold UniformGrid.exhaust, UniformGrid.hasNext. cbn [UniformGrid.m_iter u].
      rewrite Hiter. apply (traverse_exhausts mode d it).
      intros Hn. by eapply make_upper_running.
    + exists u. split; [|done].
      unfold UniformGrid.reset0, UniformGrid.exhaust. cbn [UniformGrid.m_iter u].
      rewrite Hiter, Hl, Hu, Hs. cbn [UniformGrid.m_iter u].
      by rewrite (reset0_run mode d _ _ _ _ _ Hit).
  - intros d cwise uninit c Hd Hmake.
    destruct (cwise_make_inv _ _ _ Hmake) as (it & m0 & Hit & Hco & Hrows & Hne & ->).
    pose proof (cwise_initial_rows _ _ _ Hne Hco Hrows) as Hr0.
    set (c0 := CwiseGrid.Build cwise it m0) in *.
    destruct (update_frame c0 Hr0) as (F1 & F2 & F3 & F4 & _).
    cbn [c0 CwiseGrid.m_cur] in F1, F2, F3, F4.
    destruct (cwise_run_iter d (box_size it) (CwiseGrid.update c0))
      as (_ & Hiter & Hcw).
    destruct (cwise_run_frame d (box_size it) (CwiseGrid.update c0))
      as (G1 & G2 & G3 & G4).
    { by rewrite F1, F3. }
    split.
    + unfold CwiseGrid.exhaust, CwiseGrid.hasNext. cbn [CwiseGrid.update CwiseGrid.m_iter c0].
      cbn [CwiseGrid.update CwiseGrid.m_iter c0] in Hiter.
      rewrite Hiter. apply (traverse_exhausts CUBE d it).
      intros Hn. eapply make_upper_running; [|done..]. by rewrite length_fmap.
    + exists (CwiseGrid.update c0). split; [|done].
      unfold CwiseGrid.reset0, CwiseGrid.exhaust.
      cbn [CwiseGrid.update CwiseGrid.m_iter c0] in *.
      rewrite Hiter, Hcw. rewrite (reset0_run CUBE d _ _ _ _ _ Hit).
      cbn [mbind option_bind]. f_equal.
      apply update_alike.
      * by rewrite G1, F1.
      * by rewrite G2, F2.
      * by rewrite G1, G3, F1, F3.
      * done.
      * rewrite G1, F1. rewrite F1 in G4. by rewrite G4, F4.
Qed.

Lemma C8_reset_reproduces_witness :
  (∃ it, make [0; 0] [3; 3] true = Some it ∧
     hasNext (exhaust BDR (-1) it) = false ∧
     ∃ it', reset0 (exhaust BDR (-1) it) = Some it' ∧
            traverse BDR (-1) it' = traverse BDR (-1) it) ∧
  (∃ u, UniformGrid.make [0#1; 0#1]%Q [1#1; 3#1]%Q [3; 2] = Some u ∧
     UniformGrid.hasNext (UniformGrid.exhaust CUBE 2 u) = false ∧
     ∃ u', UniformGrid.reset0 (UniformGrid.exhaust CUBE 2 u) = Some u' ∧
           UniformGrid.traverse CUBE 2 u' = UniformGrid.traverse CUBE 2 u) ∧
  (∃ c, CwiseGrid.make [CwiseGrid.Matrix 2 1 [0#1; 10#1]%Q;
                        CwiseGrid.Matrix 3 1 [5#1; 6#1; 7#1]%Q]
          (λ _, (99#1)%Q) = Some c ∧
     CwiseGrid.hasNext (CwiseGrid.exhaust (-1) c) = false ∧
     ∃ c', CwiseGrid.reset0 (CwiseGrid.exhaust (-1) c) = Some c' ∧
           CwiseGrid.traverse (-1) c' = CwiseGrid.traverse (-1) c).
Proof.
  destruct (@C8_reset_reproduces Q _) as (H1 & H2 & H3).
  split; [|split]; (eexists; split; [reflexivity|]).
  - apply (H1 BDR (-1) [0; 0] [3; 3] true); [by left|reflexivity].
  - apply (H2 CUBE 2 [0#1; 0#1]%Q [1#1; 3#1]%Q [3; 2]); [by right|reflexivity].
  - apply (H3 (-1) [CwiseGrid.Matrix 2 1 [0#1; 10#1]%Q;
                    CwiseGrid.Matrix 3 1 [5#1; 6#1; 7#1]%Q] (λ _, (99#1)%Q));
      [by left|reflexivity].
Defined.

(** The tensor index of the coordinate-wise iterator built from arrays
    that are column or row vectors with at least one row: the construction
    succeeds, the traversal terminates, [numPointsCwise()] is the vector of
    the [rows()] of the arrays, and the tensor index of axis [i] takes in
    the traversal exactly the values [0, ..., cwise[i].rows() - 1].  So on
    an axis given by a 1-by-[n] row the index is always 0 and the entry it
    selects is the first one, and each of the [n] entries of an [n]-by-1
    column is selected by the index at some point of the traversal.  Only
    the coefficients of an emitted point below [m_cur.rows()] are the
    selected entries. *)
Lemma cwise_axis_extent {T : Type} `{Inhabited T} d
    (cwise : list (CwiseGrid.gsMatrix T)) uninit :
  dim_ok d (length cwise) → cwise ≠ [] →
  Forall (λ m, (CwiseGrid.cols m = 1 ∨ CwiseGrid.rows m = 1) ∧
               1 ≤ CwiseGrid.rows m) cwise →
  ∃ c, CwiseGrid.make cwise uninit = Some c ∧
    CwiseGrid.hasNext (CwiseGrid.exhaust d c) = false ∧
    CwiseGrid.numPointsCwise c = CwiseGrid.rows <$> cwise ∧
    (∀ (i : nat) m k, cwise !! i = Some m →
       (∃ idx pt, (idx, pt) ∈ CwiseGrid.traverse_indexed d c ∧ idx !! i = Some k)
       ↔ 0 ≤ k < CwiseGrid.rows m) ∧
    (∀ (i : nat) m idx pt, cwise !! i = Some m → CwiseGrid.rows m = 1 →
       (idx, pt) ∈ CwiseGrid.traverse_indexed d c →
       idx !! i = Some 0 ∧
       CwiseGrid.at_ m (idx !!! i) = CwiseGrid.coeffs m !!! 0%nat) ∧
    (∀ (i : nat) m (k : nat) x, cwise !! i = Some m →
       CwiseGrid.cols m = 1 →
       length (CwiseGrid.coeffs m) = Z.to_nat (CwiseGrid.rows m) →
       CwiseGrid.coeffs m !! k = Some x →
       ∃ idx pt, (idx, pt) ∈ CwiseGrid.traverse_indexed d c ∧
                 CwiseGrid.at_ m (idx !!! i) = x) ∧
    (∀ idx pt (i : nat),
       (idx, pt) ∈ CwiseGrid.traverse_indexed d c →
       Z.of_nat i < CwiseGrid.rows pt →
       CwiseGrid.coeffs pt !! i
       = Some (CwiseGrid.at_ (cwise !!! i) (idx !!! i))).
Proof.
  intros Hd Hne Hall.
  destruct (cwise_make_Some cwise uninit Hne) as [c Hmake].
  { eapply list.Forall_impl; [exact Hall|]. by intros m [? _]. }
  exists c. split; [done|].
  destruct (cwise_make_inv _ _ _ Hmake) as (it & m0 & Hit & Hco & Hrows & _ & ->).
  pose proof (cwise_initial_rows _ _ _ Hne Hco Hrows) as Hr0.
  set (c0 := CwiseGrid.Build cwise it m0) in *.
  destruct (update_frame c0 Hr0) as (F1 & _ & F3 & _ & F5).
  cbn [c0 CwiseGrid.m_cur] in F1, F3, F5.
  pose proof (make_upper_bounds _ _ _ Hit) as (Hlo & Hcu & Hup).
  rewrite length_fmap in Hlo, Hcu.
  assert (hasNext it = true) as Hn.
  { eapply make_upper_closed_hasNext; [| |exact Hit].
    - apply Forall_fmap. eapply list.Forall_impl; [exact Hall|].
      intros m [_ ?]. simpl. lia.
    - by destruct cwise. }
  assert (running d it) as Hr.
  { eapply make_upper_running; [|done..]. by rewrite length_fmap. }
  destruct (cwise_run_iter d (box_size it) (CwiseGrid.update c0))
    as (Hidx & Hiter & _).
  cbn [CwiseGrid.update CwiseGrid.m_iter c0] in Hidx, Hiter.
  assert (∀ idx, (∃ pt, (idx, pt) ∈ CwiseGrid.traverse_indexed d (CwiseGrid.update c0))
                 ↔ in_box idx (m_low it) (m_upp it)) as Hbox.
  { intros idx. rewrite <- (cube_traverse_exact d it idx Hr) by congruence.
    unfold traverse, CwiseGrid.traverse_indexed.
    cbn [CwiseGrid.update CwiseGrid.m_iter c0]. rewrite <- Hidx.
    rewrite list_elem_of_fmap. split.
    - intros [pt Hin]. by exists (idx, pt).
    - intros ([idx' pt] & -> & Hin). by exists pt. }
  assert (∀ (i : nat) m k, cwise !! i = Some m →
       (∃ idx pt, (idx, pt) ∈ CwiseGrid.traverse_indexed d (CwiseGrid.update c0)
                  ∧ idx !! i = Some k)
       ↔ 0 ≤ k < CwiseGrid.rows m) as Haxis.
  { intros i m k Hm. split.
    + intros (idx & pt & Hin & Hk).
      assert (in_box idx (m_low it) (m_upp it)) as Hb by (apply Hbox; eauto).
      pose proof (in_box_lookup _ _ _ i Hb (lookup_lt_Some _ _ _ Hk)) as Hrange.
      rewrite Hlo, Hup, (list_lookup_total_correct _ _ _ Hk) in Hrange.
      rewrite lookup_total_replicate_2 in Hrange by (by eapply lookup_lt_Some).
      rewrite (list_lookup_total_correct
               ((λ m, CwiseGrid.rows m - 1) <$> cwise) i (CwiseGrid.rows m - 1))
      in Hrange
        by (by rewrite list_lookup_fmap, Hm). lia.
    + intros Hk.
      assert (in_box (<[i := k]> (m_low it)) (m_low it) (m_upp it)) as Hb.
      { apply (in_box_insert _ _ _ i 0 (CwiseGrid.rows m - 1)).
        - replace (m_low it) with (m_cur it) at 1 by congruence. apply Hr.
        - rewrite Hlo. apply lookup_replicate_2. by eapply lookup_lt_Some.
        - by rewrite Hup, list_lookup_fmap, Hm.
        - lia. }
      apply Hbox in Hb as [pt Hin]. exists (<[i := k]> (m_low it)), pt.
      split; [done|].
      apply list_lookup_insert_eq. rewrite Hlo, length_replicate.
      by eapply lookup_lt_Some. }
  split; [|split; [|split; [done|split; [|split]]]].
  - unfold CwiseGrid.exhaust, CwiseGrid.hasNext.
    cbn [CwiseGrid.update CwiseGrid.m_iter c0]. rewrite Hiter.
    apply (traverse_exhausts CUBE d it). by intros _.
  - unfold CwiseGrid.numPointsCwise. cbn [CwiseGrid.update CwiseGrid.m_iter c0].
    rewrite (numPointsCwise_closed _ _ Hit), <- list_fmap_compose.
    apply list_fmap_ext. intros _ m _. simpl. lia.
  - intros i m idx pt Hm Hone Hin.
    assert (idx !! i = Some 0) as Hz; [|split; [done|];
      by rewrite (list_lookup_total_correct _ _ _ Hz)].
    assert (in_box idx (m_low it) (m_upp it)) as Hb by (apply Hbox; eauto).
    pose proof (in_box_length _ _ _ Hb) as [Hl _].
    rewrite Hlo, length_replicate in Hl.
    assert (i < length idx)%nat as Hi by (rewrite <- Hl; by eapply lookup_lt_Some).
    pose proof (in_box_lookup _ _ _ i Hb Hi) as Hrange.
    rewrite Hlo, Hup in Hrange.
    rewrite lookup_total_replicate_2 in Hrange by lia.
    rewrite (list_lookup_total_correct
               ((λ m, CwiseGrid.rows m - 1) <$> cwise) i (CwiseGrid.rows m - 1))
      in Hrange
      by (by rewrite list_lookup_fmap, Hm).
    destruct (lookup_lt_is_Some_2 idx i Hi) as [x Hx].
    rewrite (list_lookup_total_correct _ _ _ Hx) in Hrange.
    rewrite Hx. f_equal. simpl in Hrange. lia.
  - intros i m k x Hm Hcol Hlen Hx.
    destruct (proj2 (Haxis i m (Z.of_nat k) Hm)) as (idx & pt & Hin & Hk).
    { apply lookup_lt_Some in Hx. lia. }
    exists idx, pt. split; [done|]. unfold CwiseGrid.at_.
    rewrite (list_lookup_total_correct _ _ _ Hk), Nat2Z.id.
    by apply list_lookup_total_correct.
  - intros idx pt i Hin Hi.
    destruct (cwise_reachable d (box_size it) (CwiseGrid.update c0) idx pt)
      as [Hrows' Hco'].
    + by rewrite F1, F3.
    + intros j Hj. rewrite F1 in Hj. by rewrite (F5 j Hj).
    + exact Hin.
    + rewrite Hrows', F1 in Hi. rewrite F1 in Hco'. apply Hco'. lia.
Qed.

(** C10.  The coordinate-wise iterator on the two columns [(0, 10)] and
    [(5, 6, 7)], whatever [resize] left in the storage of the current
    point: [numPointsCwise()] is [(2, 3)] and the tensor index runs through
    the six combinations, but the current point is 1-by-2, [update()]
    loops over its single row, and every emitted point holds an entry of
    the first column in coefficient 0 and the unset storage in coefficient
    1: no entry of the second column is in any emitted point.  When the
    first array has a single row the current point is a column, and the
    three entries of a column on the second axis are emitted; a 1-by-3 row
    gives a single point, with its first entry. *)
Theorem C10_cwise_column_unwritten (uninit : nat → Q) :
  (∃ c, CwiseGrid.make [CwiseGrid.Matrix 2 1 [0#1; 10#1]%Q;
                        CwiseGrid.Matrix 3 1 [5#1; 6#1; 7#1]%Q] uninit = Some c ∧
     CwiseGrid.numPointsCwise c = [2; 3] ∧
     CwiseGrid.traverse_indexed (-1) c
     = [([0; 0], CwiseGrid.Matrix 1 2 [(0#1)%Q; uninit 1%nat]);
        ([1; 0], CwiseGrid.Matrix 1 2 [(10#1)%Q; uninit 1%nat]);
        ([0; 1], CwiseGrid.Matrix 1 2 [(0#1)%Q; uninit 1%nat]);
        ([1; 1], CwiseGrid.Matrix 1 2 [(10#1)%Q; uninit 1%nat]);
        ([0; 2], CwiseGrid.Matrix 1 2 [(0#1)%Q; uninit 1%nat]);
        ([1; 2], CwiseGrid.Matrix 1 2 [(10#1)%Q; uninit 1%nat])]) ∧
  (∃ c, CwiseGrid.make [CwiseGrid.Matrix 1 1 [4#1]%Q;
                        CwiseGrid.Matrix 3 1 [5#1; 6#1; 7#1]%Q] uninit = Some c ∧
     CwiseGrid.numPointsCwise c = [1; 3] ∧
     CwiseGrid.traverse_indexed (-1) c
     = [([0; 0], CwiseGrid.Matrix 2 1 [4#1; 5#1]%Q);
        ([0; 1], CwiseGrid.Matrix 2 1 [4#1; 6#1]%Q);
        ([0; 2], CwiseGrid.Matrix 2 1 [4#1; 7#1]%Q)]) ∧
  (∃ c, CwiseGrid.make [CwiseGrid.Matrix 1 3 [1#1; 2#1; 3#1]%Q] uninit = Some c ∧
     CwiseGrid.numPointsCwise c = [1] ∧
     CwiseGrid.traverse_indexed (-1) c
     = [([0], CwiseGrid.Matrix 1 1 [1#1]%Q)]).
Proof.
  repeat split; eexists; (split; [reflexivity|]); split; reflexivity.
Qed.

(** * Further properties of the iterators *)

(** ** What [operator++] keeps *)

Lemma reset_below_length i : ∀ low cur,
  length (reset_below i low cur) = length cur.
Proof.
  induction i as [|i IH]; intros low cur; cbn [reset_below]; [done|].
  by rewrite IH, length_insert.
Qed.

Lemma inc_cube_loop_keeps mode k : ∀ i it,
  length (m_cur (inc_cube_loop mode k i it)) = length (m_cur it) ∧
  (m_dim (inc_cube_loop mode k i it) = m_dim it ∨
   m_dim (inc_cube_loop mode k i it) = 0).
Proof.
  induction k as [|k IH]; intros i it; cbn [inc_cube_loop].
  - split; [done|by right].
  - case_bool_decide.
    + case_bool_decide; cbn; rewrite length_insert; auto.
    + destruct (IH (S i) (set_cur it (<[i:=m_low it !!! i]> (m_cur it))))
        as [-> Hd]. cbn. by rewrite length_insert.
Qed.

Lemma inc_bdr_loop_keeps k : ∀ i it,
  length (m_cur (inc_bdr_loop k i it)) = length (m_cur it) ∧
  (m_dim (inc_bdr_loop k i it) = m_dim it ∨ m_dim (inc_bdr_loop k i it) = 0).
Proof.
  induction k as [|k IH]; intros i it; cbn [inc_bdr_loop].
  - split; [done|by right].
  - case_bool_decide; [|apply IH]. cbn [set_cur m_cur m_dim].
    rewrite reset_below_length. split; [|by left].
    repeat (destruct (_ && _) || case_bool_decide); by rewrite length_insert.
Qed.

(** X1.  In every mode and from every state, [operator++] leaves the
    bounds and the number of coordinates as they are, and [m_dim] either
    stays or becomes 0: an exhausted iterator stays exhausted. *)
Theorem inc_keeps mode d it :
  m_low (inc mode d it) = m_low it ∧
  m_upp (inc mode d it) = m_upp it ∧
  length (m_cur (inc mode d it)) = length (m_cur it) ∧
  (m_dim (inc mode d it) = m_dim it ∨ m_dim (inc mode d it) = 0) ∧
  (hasNext it = false → hasNext (inc mode d it) = false).
Proof.
  destruct (inc_bounds mode d it) as [Hl Hu].
  assert (length (m_cur (inc mode d it)) = length (m_cur it) ∧
          (m_dim (inc mode d it) = m_dim it ∨ m_dim (inc mode d it) = 0))
    as [Hlen Hdim].
  { destruct mode; cbn [inc]; auto using inc_cube_loop_keeps, inc_bdr_loop_keeps. }
  repeat split; try done. unfold hasNext.
  intros Hn%bool_decide_eq_false. apply bool_decide_eq_false.
  intros Hne. apply Hn. intros Hz. destruct Hdim; congruence.
Qed.

Lemma inc_keeps_witness :
  hasNext (Build [0; 0] [2; 2] [2; 2] 0) = false ∧
  hasNext (inc BDR (-1) (Build [0; 0] [2; 2] [2; 2] 0)) = false.
Proof.
  split; [reflexivity|].
  destruct (inc_keeps BDR (-1) (Build [0; 0] [2; 2] [2; 2] 0))
    as (_ & _ & _ & _ & Hk).
  apply Hk. reflexivity.
Defined.

(** ** The order of a traversal *)


Lemma increasing_filter {A} (f : A → Z) (P : A → Prop)
    `{∀ x, Decision (P x)} l :
  increasing f l → increasing f (filter P l).
Proof.
  induction l as [|x l IH]; [done|]. cbn [increasing]. intros [Hx Hl].
  rewrite filter_cons. destruct (decide (P x)); [|auto].
  cbn [increasing]. split; [|auto].
  apply list.Forall_forall. intros y [_ Hy]%list_elem_of_filter.
  rewrite list.Forall_forall in Hx. auto.
Qed.

(** Two increasing lists with the same elements are equal. *)
Lemma increasing_unique {A} (f : A → Z) l1 : ∀ l2,
  increasing f l1 → increasing f l2 → (∀ x, x ∈ l1 ↔ x ∈ l2) → l1 = l2.
Proof.
  induction l1 as [|x l1 IH]; intros [|y l2] H1 H2 Hel.
  - done.
  - exfalso. eapply elem_of_nil, Hel. by left.
  - exfalso. eapply elem_of_nil, Hel. by left.
  - destruct H1 as [Hx H1], H2 as [Hy H2].
    rewrite list.Forall_forall in Hx, Hy.
    assert (x = y) as ->.
    { pose proof (proj1 (Hel x) ltac:(by left)) as Hx2.
      pose proof (proj2 (Hel y) ltac:(by left)) as Hy1.
      apply elem_of_cons in Hx2 as [?|Hx2]; [done|].
      apply elem_of_cons in Hy1 as [?|Hy1]; [done|].
      specialize (Hx _ Hy1). specialize (Hy _ Hx2). lia. }
    f_equal. apply IH; [done..|]. intros z. split; intros Hz.
    + pose proof (proj1 (Hel z) ltac:(by right)) as Hz2.
      apply elem_of_cons in Hz2 as [->|?]; [|done].
      specialize (Hx _ Hz). lia.
    + pose proof (proj2 (Hel z) ltac:(by right)) as Hz1.
      apply elem_of_cons in Hz1 as [->|?]; [|done].
      specialize (Hy _ Hz). lia.
Qed.

Lemma run_increasing_list mode d fuel : ∀ it,
  running d it →
  increasing (λ p, flat p (m_low it) (m_upp it)) (run mode d fuel it).1.
Proof.
  induction fuel as [|f IH]; intros it Hr; cbn [run]; [done|].
  rewrite (running_hasNext _ _ Hr). cbn [fst increasing]. split.
  - apply list.Forall_forall. intros p Hp. by apply (run_increasing mode d f).
  - destruct (step mode (m_cur it) (m_low it) (m_upp it)).2 eqn:Hs.
    + by rewrite run_done by eauto using running_done.
    + destruct (running_step _ _ _ Hr Hs) as (Hr' & Hl & Hu & _).
      rewrite <- Hl, <- Hu. by apply IH.
Qed.



(** X4.  On a non-empty box of dimension at least one, in the modes 0, 1
    and 2, the first point of the traversal is [lower()] and the last one
    is [upper()]. *)
Theorem traverse_first_last mode d low upp :
  mode ≠ CWISE → dim_ok d (length low) → low ≠ [] → Forall2 Z.le low upp →
  ∃ it, make low upp false = Some it ∧
    lower it = low ∧ upper it = upp ∧
    head (traverse mode d it) = Some (lower it) ∧
    list.last (traverse mode d it) = Some (upper it).
Proof.
  intros Hm Hd Hne Hle. eexists. split; [by apply make_closed|].
  pose proof (closed_running d low upp Hd Hne Hle) as Hr.
  split; [done|]. split; [done|]. split.
  - unfold traverse. pose proof (running_fuel d _ Hr) as Hfuel.
    pose proof Hr as (_ & _ & _ & Hb). apply flat_bounds in Hb.
    destruct (box_size _) as [|f]; [lia|].
    cbn [run]. by rewrite (running_hasNext _ _ Hr).
  - apply (run_last mode d); [done..|]. apply (traverse_exhausts mode d).
    by intros _.
Qed.

Lemma traverse_first_last_witness :
  ∃ it, make [1; 2] [3; 2] false = Some it ∧
    lower it = [1; 2] ∧ upper it = [3; 2] ∧
    head (traverse VERTEX 2 it) = Some (lower it) ∧
    list.last (traverse VERTEX 2 it) = Some (upper it).
Proof.
  apply (traverse_first_last VERTEX 2 [1; 2] [3; 2]).
  - discriminate.
  - by right.
  - discriminate.
  - repeat constructor; lia.
Defined.

(** ** The iterator left behind by a traversal *)

Lemma cube_step_done_low mode cur : ∀ low upp,
  length low = length cur → length upp = length cur →
  (cube_step mode cur low upp).2 = true → (cube_step mode cur low upp).1 = low.
Proof.
  induction cur as [|c cs IH]; intros [|l ls] [|u us] Hl Hu; try done.
  cbn [cube_step]. case_bool_decide; cbn [fst snd]; [done|].
  intros Hd. rewrite IH; simpl in *; (done || lia).
Qed.

Lemma bdr_step_done_cur cur low upp :
  (bdr_step cur low upp).2 = true → (bdr_step cur low upp).1 = cur.
Proof.
  destruct cur as [|c cs], low as [|l ls], upp as [|u us]; try done.
  cbn [bdr_step]. case_bool_decide; cbn [fst snd]; [done|].
  intros Hd. rewrite Hd. by rewrite bdr_tail_step_done.
Qed.

Lemma run_final mode d fuel : ∀ it,
  mode ≠ CWISE → running d it →
  hasNext (run mode d fuel it).2 = false →
  m_cur (run mode d fuel it).2
  = match mode with BDR => m_upp it | _ => m_low it end.
Proof.
  induction fuel as [|f IH]; intros it Hm Hr.
  { cbn [run snd]. by rewrite (running_hasNext _ _ Hr). }
  cbn [run]. rewrite (running_hasNext _ _ Hr). cbn [fst snd]. intros Hex.
  destruct (step mode (m_cur it) (m_low it) (m_upp it)).2 eqn:Hs.
  - rewrite run_done by eauto using running_done. cbn [snd].
    rewrite (running_inc _ _ _ Hr), Hs. cbn [m_cur].
    pose proof Hr as (_ & _ & _ & Hb).
    pose proof (in_box_length _ _ _ Hb) as [Hl Hu].
    destruct mode; cbn [step] in *; try done.
    + by apply cube_step_done_low.
    + rewrite bdr_step_done_cur by done. by eapply (step_done BDR).
    + by apply cube_step_done_low.
  - destruct (running_step _ _ _ Hr Hs) as (Hr' & Hl & Hu & _).
    rewrite (IH _ Hm Hr' Hex). by rewrite Hl, Hu.
Qed.

(** X5.  After a full traversal the iterator converts to false and keeps
    its bounds; its current point is back at [lower()] in the modes 0 and
    2, and stays at [upper()] in mode 1. *)
Theorem exhaust_state mode d low upp :
  mode ≠ CWISE → dim_ok d (length low) → low ≠ [] → Forall2 Z.le low upp →
  ∃ it, make low upp false = Some it ∧
    hasNext (exhaust mode d it) = false ∧
    lower (exhaust mode d it) = low ∧ upper (exhaust mode d it) = upp ∧
    deref (exhaust mode d it) = match mode with BDR => upp | _ => low end.
Proof.
  intros Hm Hd Hne Hle. eexists. split; [by apply make_closed|].
  pose proof (closed_running d low upp Hd Hne Hle) as Hr.
  assert (hasNext (exhaust mode d (Build low upp low (Z.of_nat (length low))))
          = false) as Hex by (apply traverse_exhausts; by intros _).
  split; [done|]. unfold lower, upper, deref, exhaust.
  destruct (run_bounds mode d (box_size (Build low upp low (Z.of_nat (length low))))
              (Build low upp low (Z.of_nat (length low)))) as [-> ->].
  split; [done|]. split; [done|].
  by rewrite (run_final mode d _ _ Hm Hr Hex).
Qed.

Lemma exhaust_state_witness :
  ∃ it, make [0; 0] [2; 1] false = Some it ∧
    hasNext (exhaust BDR (-1) it) = false ∧
    lower (exhaust BDR (-1) it) = [0; 0] ∧ upper (exhaust BDR (-1) it) = [2; 1] ∧
    deref (exhaust BDR (-1) it) = [2; 1].
Proof.
  apply (exhaust_state BDR (-1) [0; 0] [2; 1]).
  - discriminate.
  - by left.
  - discriminate.
  - repeat constructor; lia.
Defined.

(** ** The half-open construction *)

Lemma make_open_closed (a b : point) :
  make a b true = make a ((λ x, x - 1) <$> b) false.
Proof. unfold make, reset. by rewrite length_fmap. Qed.





(** ** The flat index is a numbering of the box *)






(** ** The three modes against each other *)



Lemma bdr_filter_closed d low upp :
  dim_ok d (length low) → low ≠ [] → Forall2 Z.le low upp →
  let it := Build low upp low (Z.of_nat (length low)) in
  traverse BDR d it
  = filter (λ p, isBoundary (set_cur it p) = true) (traverse CUBE d it).
Proof.
  intros Hd Hne Hle it.
  pose proof (closed_running d low upp Hd Hne Hle) as Hr.
  destruct (cube_traverse_closed d low upp Hd Hne Hle) as (_ & Hel & _).
  apply (increasing_unique (λ p, flat p low upp)).
  - apply (run_increasing_list BDR d _ _ Hr).
  - apply increasing_filter. apply (run_increasing_list CUBE d _ _ Hr).
  - intros p. rewrite list_elem_of_filter. fold it in Hel. rewrite Hel.
    unfold it. rewrite (bdr_traverse_exact d low upp p Hd Hne Hle), on_boundary_spec.
    unfold isBoundary. cbn [set_cur m_cur m_low m_upp]. tauto.
Qed.

(** X8.  On a non-empty box of dimension at least one the traversal of
    mode 1 is the traversal of mode 0 without the points at which
    [isBoundary()] is false, in the same order. *)
Theorem bdr_traverse_filter d low upp :
  dim_ok d (length low) → low ≠ [] → Forall2 Z.le low upp →
  ∃ it, make low upp false = Some it ∧
    traverse BDR d it
    = filter (λ p, isBoundary (set_cur it p) = true) (traverse CUBE d it).
Proof.
  intros Hd Hne Hle. eexists. split; [by apply make_closed|].
  by apply bdr_filter_closed.
Qed.

Lemma bdr_traverse_filter_witness :
  ∃ it, make [0; 0; 0] [2; 3; 2] false = Some it ∧
    traverse BDR (-1) it
    = filter (λ p, isBoundary (set_cur it p) = true) (traverse CUBE (-1) it).
Proof.
  apply (bdr_traverse_filter (-1) [0; 0; 0] [2; 3; 2]).
  - by left.
  - discriminate.
  - repeat constructor; lia.
Defined.

(** X9.  On a box of dimension at least one in which every axis has at
    least two points, mode 1 emits
    [prod(upp-low+1) - prod(upp-low-1)] points, the value of
    [numPoints()] when the number of points of the box fits [index_t]. *)
Theorem bdr_traverse_count d low upp :
  dim_ok d (length low) → low ≠ [] → Forall2 Z.lt low upp →
  ∃ it, make low upp false = Some it ∧
    Z.of_nat (length (traverse BDR d it))
    = prod (zip_with (λ u l, u - l + 1) upp low)
      - prod (zip_with (λ u l, u - l - 1) upp low) ∧
    (prod (zip_with (λ u l, u - l + 1) upp low) ≤ index_max →
     numPoints BDR it = Some (Z.of_nat (length (traverse BDR d it)))).
Proof.
  intros Hd Hne Hlt. eexists. split.
  - apply make_closed. clear Hd Hne. induction Hlt; constructor; [lia|done].
  - by apply bdr_count.
Qed.

Lemma bdr_traverse_count_witness :
  ∃ it, make [0; 0; 0] [3; 1; 2] false = Some it ∧
    Z.of_nat (length (traverse BDR (-1) it))
    = prod (zip_with (λ u l, u - l + 1) [3; 1; 2] [0; 0; 0])
      - prod (zip_with (λ u l, u - l - 1) [3; 1; 2] [0; 0; 0]) ∧
    (prod (zip_with (λ u l, u - l + 1) [3; 1; 2] [0; 0; 0]) ≤ index_max →
     numPoints BDR it = Some (Z.of_nat (length (traverse BDR (-1) it)))).
Proof.
  apply (bdr_traverse_count (-1) [0; 0; 0] [3; 1; 2]).
  - by left.
  - discriminate.
  - repeat constructor; lia.
Defined.








(** ** Restarting *)

(** X12.  [reset()] may be called at any time: after any number of
    advances it gives back the iterator as the constructor left it, for
    the lattice iterator, the uniform sample iterator and the
    coordinate-wise iterator. *)
Theorem reset_any_time {T : Type} `{Scalar T} :
  (∀ mode d fuel a b open it,
     make a b open = Some it → reset0 (run mode d fuel it).2 = Some it) ∧
  (∀ mode d fuel (a b : list T) np u,
     UniformGrid.make a b np = Some u →
     UniformGrid.reset0 (UniformGrid.run mode d fuel u).2 = Some u) ∧
  (∀ d fuel (cwise : list (CwiseGrid.gsMatrix T)) uninit c,
     CwiseGrid.make cwise uninit = Some c →
     CwiseGrid.reset0 (CwiseGrid.run d fuel c).2 = Some c).
Proof.
  split; [|split].
  - intros mode d fuel a b open it Hmake. by eapply reset0_run.
  - intros mode d fuel a b np u Hmake.
    destruct (uniform_make _ _ _ _ Hmake) as (it & Hit & ->).
    set (u := UniformGrid.Build a b _ it a).
    destruct (uniform_run_iter mode d fuel u) as (_ & Hiter & Hl & Hu & Hs).
    unfold UniformGrid.reset0. rewrite Hiter, Hl, Hu, Hs. cbn [UniformGrid.m_iter u].
    by rewrite (reset0_run mode d _ _ _ _ _ Hit).
  - intros d fuel cwise uninit c Hmake.
    destruct (cwise_make_inv _ _ _ Hmake) as (it & m0 & Hit & Hco & Hrows & Hne & ->).
    pose proof (cwise_initial_rows _ _ _ Hne Hco Hrows) as Hr0.
    set (c0 := CwiseGrid.Build cwise it m0) in *.
    destruct (update_frame c0 Hr0) as (F1 & F2 & F3 & F4 & _).
    cbn [c0 CwiseGrid.m_cur] in F1, F2, F3, F4.
    destruct (cwise_run_iter d fuel (CwiseGrid.update c0)) as (_ & Hiter & Hcw).
    destruct (cwise_run_frame d fuel (CwiseGrid.update c0)) as (G1 & G2 & G3 & G4).
    { by rewrite F1, F3. }
    unfold CwiseGrid.reset0.
    cbn [CwiseGrid.update CwiseGrid.m_iter c0] in *.
    rewrite Hiter, Hcw. rewrite (reset0_run CUBE d _ _ _ _ _ Hit).
    cbn [mbind option_bind]. f_equal.
    apply update_alike.
    + by rewrite G1, F1.
    + by rewrite G2, F2.
    + by rewrite G1, G3, F1, F3.
    + done.
    + rewrite G1, F1. rewrite F1 in G4. by rewrite G4, F4.
Qed.

Lemma reset_any_time_witness :
  (∃ it, make [0; 0] [3; 3] true = Some it ∧
     reset0 (run BDR (-1) 3 it).2 = Some it) ∧
  (∃ u, UniformGrid.make [0#1; 0#1]%Q [1#1; 3#1]%Q [3; 2] = Some u ∧
     UniformGrid.reset0 (UniformGrid.run CUBE 2 4 u).2 = Some u) ∧
  (∃ c, CwiseGrid.make [CwiseGrid.Matrix 2 1 [0#1; 10#1]%Q;
                        CwiseGrid.Matrix 3 1 [5#1; 6#1; 7#1]%Q]
          (λ _, (99#1)%Q) = Some c ∧
     CwiseGrid.reset0 (CwiseGrid.run (-1) 2 c).2 = Some c).
Proof.
  destruct (@reset_any_time Q _) as (H1 & H2 & H3).
  split; [|split]; (eexists; split; [reflexivity|]).
  - by apply (H1 BDR (-1) 3%nat [0; 0] [3; 3] true).
  - by apply (H2 CUBE 2 4%nat [0#1; 0#1]%Q [1#1; 3#1]%Q [3; 2]).
  - by apply (H3 (-1) 2%nat [CwiseGrid.Matrix 2 1 [0#1; 10#1]%Q;
                             CwiseGrid.Matrix 3 1 [5#1; 6#1; 7#1]%Q]
                (λ _, (99#1)%Q)).
Defined.

(** X13.  [reset(a, b)] of the uniform sample iterator, called after any
    number of advances, gives the iterator that the constructor builds
    from the new limits and the sample counts of the first construction. *)
Theorem uniform_reset_limits {T : Type} `{Scalar T} mode d fuel
    (a b a' b' : list T) np u :
  UniformGrid.make a b np = Some u →
  UniformGrid.reset (UniformGrid.run mode d fuel u).2 a' b'
  = UniformGrid.make a' b' np.
Proof.
  intros Hmake.
  destruct (uniform_make _ _ _ _ Hmake) as (it & Hit & ->).
  set (u := UniformGrid.Build a b _ it a).
  destruct (uniform_run_iter mode d fuel u) as (_ & Hiter & _).
  unfold UniformGrid.make. rewrite Hit. cbn [mbind option_bind].
  unfold UniformGrid.reset. rewrite Hiter. cbn [UniformGrid.m_iter u].
  rewrite (reset0_run mode d _ _ _ _ _ Hit).
  pose proof (reset0_run CUBE 0 0 _ _ _ _ Hit) as Hr0. cbn [run snd] in Hr0.
  rewrite Hr0. cbn [mbind option_bind].
  unfold numPointsCwise. destruct (run_bounds mode d fuel it) as [-> ->]. done.
Qed.

Lemma uniform_reset_limits_witness :
  ∃ u, UniformGrid.make [0#1; 0#1]%Q [1#1; 3#1]%Q [3; 2] = Some u ∧
    UniformGrid.reset (UniformGrid.run BDR (-1) 2 u).2 [1#1; 1#1]%Q [2#1; 5#1]%Q
    = UniformGrid.make [1#1; 1#1]%Q [2#1; 5#1]%Q [3; 2].
Proof.
  eexists. split; [reflexivity|].
  by apply (uniform_reset_limits BDR (-1) 2%nat [0#1; 0#1]%Q [1#1; 3#1]%Q).
Defined.

(** ** The samples of the uniform iterator *)

Lemma make_upper_open_Build (np : point) :
  Forall (λ n, 1 ≤ n) np →
  make_upper np true
  = Some (Build (replicate (length np) 0) ((λ x, x - 1) <$> np)
            (replicate (length np) 0) (Z.of_nat (length np))).
Proof.
  intros Hnp. unfold make_upper. fold (make (replicate (length np) 0) np true).
  rewrite make_open_closed, make_closed, length_replicate; [done|].
  induction Hnp; cbn [length replicate fmap list_fmap]; constructor; [lia|done].
Qed.

Section UniformSamples.
Context {T : Type} `{Scalar T}.

(** The value stored in a coordinate, by the tensor index of its axis. *)
Lemma uniform_emitted mode d (a b : list T) np u it :
  dim_ok d (length np) → length a = length np →
  Forall (λ n, 1 ≤ n) np → np ≠ [] →
  UniformGrid.make a b np = Some u → make_upper np true = Some it →
  (UniformGrid.traverse_indexed mode d u).*1 = traverse mode d it ∧
  running d it ∧
  ∀ idx p, (idx, p) ∈ UniformGrid.traverse_indexed mode d u →
    idx ∈ traverse mode d it ∧ length p = length np ∧
    ∀ i : nat, (i < length np)%nat →
      p !!! i
      = if bool_decide (idx !!! i = 0) then a !!! i
        else if (if bool_decide (mode_value mode ≠ 0)
                 then bool_decide (idx !!! i = np !!! i - 1)
                 else bool_decide (idx !!! i + 1 = np !!! i - 1))
             then b !!! i
             else scalar_add (a !!! i)
                    (scalar_mul (scalar_cast (idx !!! i))
                                (UniformGrid.m_step u !!! i)).
Proof.
  intros Hd Ha Hnp Hne Hmake Hit.
  destruct (uniform_make _ _ _ _ Hmake) as (it' & Hit' & ->).
  assert (it' = it) as -> by congruence. clear Hit'.
  pose proof (make_upper_bounds _ _ _ Hit) as (Hlo & Hcu & Hup).
  pose proof (make_upper_open_hasNext _ _ Hnp Hne Hit) as Hn.
  pose proof (make_upper_running d _ _ _ Hd Hit Hn) as Hr.
  set (u := UniformGrid.Build a b _ it a) in *.
  destruct (uniform_run_iter mode d (box_size it) u) as (Hidx & _).
  cbn [UniformGrid.m_iter u] in Hidx.
  split; [done|]. split; [done|]. intros idx p Hin.
  assert (idx ∈ traverse mode d it) as Hidx_in.
  { unfold traverse. rewrite <- Hidx.
    by apply (list_elem_of_fmap_2 fst _ (idx, p)). }
  destruct (uniform_reachable mode d (box_size it) u idx p) as
    (u' & H1 & H2 & H3 & H4 & H5 & H6 & H7 & H8 & H9); try done.
  { cbn [u UniformGrid.m_low]. by rewrite Ha. }
  { intros j Hj. unfold UniformGrid.coordinate, isFloor.
    cbn [u UniformGrid.m_low UniformGrid.m_iter UniformGrid.m_cur].
    by rewrite Hcu, Hlo, bool_decide_eq_true_2. }
  cbn [u UniformGrid.m_low UniformGrid.m_upp UniformGrid.m_step
       UniformGrid.m_iter] in *.
  split; [done|]. split; [lia|]. intros i Hi.
  rewrite (H9 i) by lia. unfold UniformGrid.coordinate, isFloor, isCeil.
  unfold UniformGrid.tensorIndex in H6.
  rewrite H1, H2, H3, H4, H5, H6, Hlo, Hup, pred_lookup,
    lookup_total_replicate_2 by lia.
  done.
Qed.

End UniformSamples.



(** X15.  A uniform sample iterator constructed with no axis, or with a
    sample count [np[i] <= 0] on some axis, converts to false at once and
    emits no sample, in every mode. *)
Theorem uniform_no_samples {T : Type} `{Scalar T} mode d (a b : list T) np u :
  length a = length np → length b = length np →
  np = [] ∨ Exists (λ n, n ≤ 0) np →
  UniformGrid.make a b np = Some u →
  UniformGrid.hasNext u = false ∧
  UniformGrid.traverse_indexed mode d u = [] ∧
  UniformGrid.traverse mode d u = [].
Proof.
  intros Ha Hb Hnp Hmake.
  destruct (uniform_make _ _ _ _ Hmake) as (it & Hit & ->).
  assert (hasNext it = false) as Hn.
  { revert Hit. unfold make_upper, reset.
    rewrite bool_decide_eq_true_2 by (by rewrite length_replicate).
    intros [= <-]. unfold hasNext. cbn [m_dim].
    apply bool_decide_eq_false. intros Hdim. apply Hdim.
    case_bool_decide as Hle; [|done].
    destruct Hnp as [->|Hex]; [done|]. exfalso. clear -Hle Hex.
    induction Hex as [n np Hn|n np Hex IH];
      cbn [length replicate fmap list_fmap] in Hle; inversion Hle; subst;
      [lia|by apply IH]. }
  split; [done|].
  assert (UniformGrid.traverse_indexed mode d (UniformGrid.Build a b
            (zip_with scalar_div (zip_with scalar_sub b a)
               ((λ n, scalar_cast (Z.max (n - 1) 1)) <$> np)) it a) = []) as Hnil.
  { unfold UniformGrid.traverse_indexed. cbn [UniformGrid.m_iter].
    destruct (box_size it); cbn [UniformGrid.run]; [done|].
    unfold UniformGrid.hasNext. cbn [UniformGrid.m_iter]. by rewrite Hn. }
  split; [done|]. unfold UniformGrid.traverse. by rewrite Hnil.
Qed.

Lemma uniform_no_samples_witness :
  ∃ u, UniformGrid.make [0#1; 0#1]%Q [1#1; 3#1]%Q [3; 0] = Some u ∧
  UniformGrid.hasNext u = false ∧
  UniformGrid.traverse_indexed BDR (-1) u = [] ∧
  UniformGrid.traverse BDR (-1) u = [].
Proof.
  eexists. split; [reflexivity|].
  apply (uniform_no_samples BDR (-1) [0#1; 0#1]%Q [1#1; 3#1]%Q [3; 0]).
  - reflexivity.
  - reflexivity.
  - right. apply Exists_cons_tl, Exists_cons_hd. lia.
  - reflexivity.
Defined.

(** X16.  The coordinates of the samples of mode 0, by the tensor index of
    the axis: [a[i]] at index 0; [b[i]] at the non-zero index
    [np[i] - 2], the one that [isCeil] of mode 0 accepts; and
    [a[i] + idx[i] * step[i]] at every other index, the last one,
    [np[i] - 1], among them. *)
Theorem uniform_cube_coordinates {T : Type} `{Scalar T} d (a b : list T) np u :
  dim_ok d (length np) → length a = length np → length b = length np →
  Forall (λ n, 1 ≤ n) np → np ≠ [] →
  UniformGrid.make a b np = Some u →
  ∀ idx p (i : nat),
    (idx, p) ∈ UniformGrid.traverse_indexed CUBE d u → (i < length np)%nat →
    (idx !!! i = 0 → p !!! i = a !!! i) ∧
    (idx !!! i ≠ 0 → idx !!! i = np !!! i - 2 → p !!! i = b !!! i) ∧
    (idx !!! i ≠ 0 → idx !!! i ≠ np !!! i - 2 →
     p !!! i = scalar_add (a !!! i)
                 (scalar_mul (scalar_cast (idx !!! i))
                             (UniformGrid.step u !!! i))).
Proof.
  intros Hd Ha Hb Hnp Hne Hmake idx p i Hin Hi.
  pose proof (make_upper_open_Build np Hnp) as Hit.
  destruct (uniform_emitted CUBE d a b np u _ Hd Ha Hnp Hne Hmake Hit)
    as (_ & _ & Hpt).
  destruct (Hpt idx p Hin) as (_ & _ & Hco). rewrite (Hco i Hi).
  cbn [mode_value]. rewrite (bool_decide_eq_false_2 (0 ≠ 0)) by lia.
  split; [|split].
  - intros Hz. by rewrite bool_decide_eq_true_2.
  - intros Hz Hc. rewrite bool_decide_eq_false_2 by done.
    by rewrite bool_decide_eq_true_2 by lia.
  - intros Hz Hc. rewrite bool_decide_eq_false_2 by done.
    by rewrite bool_decide_eq_false_2 by lia.
Qed.

Lemma uniform_cube_coordinates_witness :
  ∃ u, UniformGrid.make [0#1]%Q [1#1]%Q [4] = Some u ∧
  ∀ idx p (i : nat),
    (idx, p) ∈ UniformGrid.traverse_indexed CUBE (-1) u → (i < 1)%nat →
    (idx !!! i = 0 → p !!! i = [0#1]%Q !!! i) ∧
    (idx !!! i ≠ 0 → idx !!! i = [4] !!! i - 2 → p !!! i = [1#1]%Q !!! i) ∧
    (idx !!! i ≠ 0 → idx !!! i ≠ [4] !!! i - 2 →
     p !!! i = scalar_add ([0#1]%Q !!! i)
                 (scalar_mul (scalar_cast (idx !!! i))
                             (UniformGrid.step u !!! i))).
Proof.
  eexists. split; [reflexivity|].
  apply (uniform_cube_coordinates (-1) [0#1]%Q [1#1]%Q [4]).
  - by left.
  - reflexivity.
  - reflexivity.
  - repeat constructor; lia.
  - discriminate.
  - reflexivity.
Defined.

Lemma samples_lt (np : point) :
  Forall (λ n, 2 ≤ n) np →
  Forall2 Z.lt (replicate (length np) 0) ((λ x, x - 1) <$> np).
Proof.
  intros Hnp. induction Hnp; cbn [length replicate fmap list_fmap];
    constructor; [lia|done].
Qed.

Lemma samples_ge_one (np : point) :
  Forall (λ n, 2 ≤ n) np → Forall (λ n, 1 ≤ n) np.
Proof. intros Hnp. eapply list.Forall_impl; [exact Hnp|]. intros n. simpl. lia. Qed.

Lemma index_lookup (np idx : point) (i : nat) :
  in_box idx (replicate (length np) 0) ((λ x, x - 1) <$> np) →
  (i < length np)%nat →
  idx !! i = Some (idx !!! i) ∧
  replicate (length np) 0 !! i = Some 0 ∧
  ((λ x, x - 1) <$> np) !! i = Some (np !!! i - 1).
Proof.
  intros Hb Hi. pose proof (in_box_length _ _ _ Hb) as [Hl _].
  rewrite length_replicate in Hl.
  destruct (lookup_lt_is_Some_2 idx i ltac:(lia)) as [c Hc].
  destruct (lookup_lt_is_Some_2 np i Hi) as [n Hn].
  rewrite (list_lookup_total_correct idx i c Hc).
  rewrite (list_lookup_total_correct np i n Hn).
  split; [done|]. split; [by apply lookup_replicate_2|].
  by rewrite list_lookup_fmap, Hn.
Qed.

(** X17.  The samples of mode 2 are corners of [[a, b]]: on every axis the
    tensor index is 0 and the coordinate is [a[i]], or the tensor index is
    [np[i] - 1 > 0] and the coordinate is [b[i]].  With at least two
    samples on every axis there are [2^d] of them. *)
Theorem uniform_vertex_corners {T : Type} `{Scalar T} d (a b : list T) np u :
  dim_ok d (length np) → length a = length np → length b = length np →
  Forall (λ n, 1 ≤ n) np → np ≠ [] →
  UniformGrid.make a b np = Some u →
  (∀ idx p (i : nat),
     (idx, p) ∈ UniformGrid.traverse_indexed VERTEX d u → (i < length np)%nat →
     (idx !!! i = 0 ∧ p !!! i = a !!! i) ∨
     (idx !!! i = np !!! i - 1 ∧ 2 ≤ np !!! i ∧ p !!! i = b !!! i)) ∧
  (Forall (λ n, 2 ≤ n) np →
   Z.of_nat (length (UniformGrid.traverse VERTEX d u)) = 2 ^ Z.of_nat (length np)).
Proof.
  intros Hd Ha Hb Hnp Hne Hmake.
  pose proof (make_upper_open_Build np Hnp) as Hit.
  destruct (uniform_emitted VERTEX d a b np u _ Hd Ha Hnp Hne Hmake Hit)
    as (Hidx & Hr & Hpt).
  assert (Forall2 Z.le (replicate (length np) 0) ((λ x, x - 1) <$> np)) as Hle.
  { clear -Hnp. induction Hnp; cbn [length replicate fmap list_fmap];
      constructor; [lia|done]. }
  assert (dim_ok d (length (replicate (length np) 0))) as Hd'
    by (by rewrite length_replicate).
  assert (replicate (length np) 0 ≠ []) as Hne' by (by destruct np).
  destruct (vertex_traverse d _ _ Hd' Hne' Hle) as (_ & _ & Hin & Hcount).
  rewrite length_replicate in Hin, Hcount.
  split.
  - intros idx p i Hp Hi.
    destruct (Hpt idx p Hp) as (Hidx_in & _ & Hco).
    destruct (Hin idx Hidx_in) as [Hbox Hv].
    destruct (index_lookup np idx i Hbox Hi) as (Hc & Hl & Hu).
    rewrite (Hco i Hi). cbn [mode_value].
    rewrite (bool_decide_eq_true_2 (2 ≠ 0)) by done.
    destruct (Hv i _ Hc) as [Hz|Hz]; rewrite ?Hl, ?Hu in Hz;
      injection Hz as Hz.
    + left. split; [done|]. by rewrite bool_decide_eq_true_2.
    + destruct (decide (idx !!! i = 0)) as [H0|H0].
      * left. split; [done|]. by rewrite bool_decide_eq_true_2.
      * right. rewrite bool_decide_eq_false_2 by done.
        rewrite bool_decide_eq_true_2 by done.
        pose proof (in_box_lookup _ _ _ i Hbox) as Hrange.
        rewrite (list_lookup_total_correct _ _ _ Hl) in Hrange.
        specialize (Hrange ltac:(by eapply lookup_lt_Some)).
        repeat split; [done|lia].
  - intros Hnp2. unfold UniformGrid.traverse. rewrite length_fmap.
    rewrite <- (length_fmap fst), Hidx.
    by destruct (Hcount (samples_lt np Hnp2)) as [Hc _].
Qed.

Lemma uniform_vertex_corners_witness :
  ∃ u, UniformGrid.make [0#1; 0#1]%Q [1#1; 3#1]%Q [3; 2] = Some u ∧
  (∀ idx p (i : nat),
     (idx, p) ∈ UniformGrid.traverse_indexed VERTEX (-1) u → (i < 2)%nat →
     (idx !!! i = 0 ∧ p !!! i = [0#1; 0#1]%Q !!! i) ∨
     (idx !!! i = [3; 2] !!! i - 1 ∧ 2 ≤ [3; 2] !!! i ∧
      p !!! i = [1#1; 3#1]%Q !!! i)) ∧
  (Forall (λ n, 2 ≤ n) [3; 2] →
   Z.of_nat (length (UniformGrid.traverse VERTEX (-1) u)) = 2 ^ Z.of_nat 2).
Proof.
  eexists. split; [reflexivity|].
  apply (uniform_vertex_corners (-1) [0#1; 0#1]%Q [1#1; 3#1]%Q [3; 2]).
  - by left.
  - reflexivity.
  - reflexivity.
  - repeat constructor; lia.
  - discriminate.
  - reflexivity.
Defined.

Lemma samples_extent (np : point) :
  zip_with (λ u l, u - l + 1) ((λ x, x - 1) <$> np) (replicate (length np) 0) = np.
Proof.
  induction np as [|n np IH]; [done|].
  cbn [length replicate fmap list_fmap zip_with]. rewrite IH. f_equal. lia.
Qed.

Lemma samples_inner (np : point) :
  zip_with (λ u l, u - l - 1) ((λ x, x - 1) <$> np) (replicate (length np) 0)
  = (λ n, n - 2) <$> np.
Proof.
  induction np as [|n np IH]; [done|].
  cbn [length replicate fmap list_fmap zip_with]. rewrite IH. f_equal. lia.
Qed.

(** X18.  Every sample of mode 1 lies on the boundary of [[a, b]]: on some
    axis its tensor index is 0 and its coordinate is [a[i]], or its tensor
    index is [np[i] - 1] and its coordinate is [b[i]].  With at least two
    samples on every axis there are [prod(np) - prod(np - 2)] of them, the
    value of [numPoints()] when [prod(np)] fits [index_t]. *)
Theorem uniform_bdr_samples {T : Type} `{Scalar T} d (a b : list T) np u :
  dim_ok d (length np) → length a = length np → length b = length np →
  Forall (λ n, 1 ≤ n) np → np ≠ [] →
  UniformGrid.make a b np = Some u →
  (∀ idx p, (idx, p) ∈ UniformGrid.traverse_indexed BDR d u →
     ∃ i : nat, (i < length np)%nat ∧
       ((idx !!! i = 0 ∧ p !!! i = a !!! i) ∨
        (idx !!! i = np !!! i - 1 ∧ 2 ≤ np !!! i ∧ p !!! i = b !!! i))) ∧
  (Forall (λ n, 2 ≤ n) np →
   Z.of_nat (length (UniformGrid.traverse BDR d u))
   = prod np - prod ((λ n, n - 2) <$> np) ∧
   (prod np ≤ index_max →
    UniformGrid.numPoints BDR u
    = Some (Z.of_nat (length (UniformGrid.traverse BDR d u))))).
Proof.
  intros Hd Ha Hb Hnp Hne Hmake.
  pose proof (make_upper_open_Build np Hnp) as Hit.
  destruct (uniform_emitted BDR d a b np u _ Hd Ha Hnp Hne Hmake Hit)
    as (Hidx & Hr & Hpt).
  assert (Forall2 Z.le (replicate (length np) 0) ((λ x, x - 1) <$> np)) as Hle.
  { clear -Hnp. induction Hnp; cbn [length replicate fmap list_fmap];
      constructor; [lia|done]. }
  assert (dim_ok d (length (replicate (length np) 0))) as Hd'
    by (by rewrite length_replicate).
  assert (replicate (length np) 0 ≠ []) as Hne' by (by destruct np).
  split.
  - intros idx p Hp.
    destruct (Hpt idx p Hp) as (Hidx_in & _ & Hco).
    pose proof (bdr_traverse_exact d _ _ idx Hd' Hne' Hle) as Hex.
    rewrite length_replicate in Hex.
    apply Hex in Hidx_in as [Hbox (i & c & Hc & Hbd)].
    pose proof (in_box_length _ _ _ Hbox) as [Hl _].
    rewrite length_replicate in Hl.
    assert (i < length np)%nat as Hi by (rewrite Hl; by eapply lookup_lt_Some).
    exists i. split; [done|].
    destruct (index_lookup np idx i Hbox Hi) as (Hc' & Hlo & Hup).
    rewrite Hc' in Hc. injection Hc as <-.
    rewrite (Hco i Hi). cbn [mode_value].
    rewrite (bool_decide_eq_true_2 (1 ≠ 0)) by done.
    rewrite Hlo, Hup in Hbd.
    destruct Hbd as [Hz|Hz]; injection Hz as Hz.
    + left. split; [done|]. by rewrite bool_decide_eq_true_2.
    + destruct (decide (idx !!! i = 0)) as [H0|H0].
      * left. split; [done|]. by rewrite bool_decide_eq_true_2.
      * right. rewrite bool_decide_eq_false_2 by done.
        rewrite bool_decide_eq_true_2 by done.
        pose proof (in_box_lookup _ _ _ i Hbox) as Hrange.
        rewrite (list_lookup_total_correct _ _ _ Hlo) in Hrange.
        specialize (Hrange ltac:(lia)).
        repeat split; [done|lia].
  - intros Hnp2.
    destruct (bdr_count d _ _ Hd' Hne' (samples_lt np Hnp2)) as [Hlen Hnum].
    rewrite length_replicate in Hlen, Hnum.
    rewrite samples_extent, samples_inner in Hlen.
    rewrite samples_extent in Hnum.
    destruct (uniform_make _ _ _ _ Hmake) as (it' & Hit' & ->).
    rewrite Hit in Hit'. injection Hit' as <-.
    unfold UniformGrid.traverse, UniformGrid.numPoints.
    cbn [UniformGrid.m_iter]. rewrite length_fmap.
    rewrite <- (length_fmap fst), Hidx. done.
Qed.

Lemma uniform_bdr_samples_witness :
  ∃ u, UniformGrid.make [0#1; 0#1]%Q [1#1; 3#1]%Q [3; 4] = Some u ∧
  (∀ idx p, (idx, p) ∈ UniformGrid.traverse_indexed BDR (-1) u →
     ∃ i : nat, (i < 2)%nat ∧
       ((idx !!! i = 0 ∧ p !!! i = [0#1; 0#1]%Q !!! i) ∨
        (idx !!! i = [3; 4] !!! i - 1 ∧ 2 ≤ [3; 4] !!! i ∧
         p !!! i = [1#1; 3#1]%Q !!! i))) ∧
  (Forall (λ n, 2 ≤ n) [3; 4] →
   Z.of_nat (length (UniformGrid.traverse BDR (-1) u))
   = prod [3; 4] - prod ((λ n, n - 2) <$> [3; 4]) ∧
   (prod [3; 4] ≤ index_max →
    UniformGrid.numPoints BDR u
    = Some (Z.of_nat (length (UniformGrid.traverse BDR (-1) u))))).
Proof.
  eexists. split; [reflexivity|].
  apply (uniform_bdr_samples (-1) [0#1; 0#1]%Q [1#1; 3#1]%Q [3; 4]).
  - by left.
  - reflexivity.
  - reflexivity.
  - repeat constructor; lia.
  - discriminate.
  - reflexivity.
Defined.

(** ** The points of the coordinate-wise iterator *)


Section CwisePoints.
Context {T : Type} `{Inhabited T}.


(** What the constructor builds from a non-empty container. *)
Lemma cwise_make_front (front : CwiseGrid.gsMatrix T) rest uninit c :
  CwiseGrid.make (front :: rest) uninit = Some c →
  ∃ it,
    make_upper ((λ m, CwiseGrid.rows m - 1) <$> front :: rest) false = Some it ∧
    c = CwiseGrid.update
          (CwiseGrid.Build (front :: rest) it
             (if bool_decide (1 = CwiseGrid.rows front)
              then CwiseGrid.Matrix (Z.of_nat (S (length rest))) 1
                     (uninit <$> seq 0 (S (length rest)))
              else CwiseGrid.Matrix 1 (Z.of_nat (S (length rest)))
                     (uninit <$> seq 0 (S (length rest))))).
Proof.
  unfold CwiseGrid.make. destruct (forallb _ (front :: rest)); [|done].
  destruct (make_upper _ false) as [it|] eqn:Hit; [|done].
  cbn [mbind option_bind]. intros [= <-]. by exists it.
Qed.

(** Every emitted point has the shape of the current point and its
    coefficients from [m_cur.rows()] on. *)
Lemma cwise_emitted_frame d fuel : ∀ (c : CwiseGrid.gsGridIterator T) idx pt,
  let r := Z.to_nat (CwiseGrid.rows (CwiseGrid.m_cur c)) in
  (r ≤ length (CwiseGrid.coeffs (CwiseGrid.m_cur c)))%nat →
  (idx, pt) ∈ (CwiseGrid.run d fuel c).1 →
  CwiseGrid.cols pt = CwiseGrid.cols (CwiseGrid.m_cur c) ∧
  length (CwiseGrid.coeffs pt) = length (CwiseGrid.coeffs (CwiseGrid.m_cur c)) ∧
  drop r (CwiseGrid.coeffs pt) = drop r (CwiseGrid.coeffs (CwiseGrid.m_cur c)).
Proof.
  induction fuel as [|f IH]; intros c idx pt r Hr;
    cbn [CwiseGrid.run]; [by intros ?%elem_of_nil|].
  destruct (CwiseGrid.hasNext c); [|by intros ?%elem_of_nil].
  cbn [fst]. intros [[= -> ->]|Hin]%elem_of_cons; [done|].
  destruct (cwise_inc_frame d c Hr) as (H1 & H2 & H3 & H4 & _).
  destruct (IH (CwiseGrid.inc d c) idx pt) as (G2 & G3 & G4); try done.
  - rewrite H1, H3. done.
  - rewrite H1 in G4. rewrite G2, G3, H2, H3. split; [done|]. split; [done|].
    unfold r. by rewrite G4, H4.
Qed.

(** The emitted points of a constructed iterator, in full. *)
Lemma cwise_emitted_point d (cwise : list (CwiseGrid.gsMatrix T)) it m0 idx pt :
  let r := Z.to_nat (CwiseGrid.rows m0) in
  (r ≤ length (CwiseGrid.coeffs m0))%nat →
  (idx, pt) ∈ CwiseGrid.traverse_indexed d
                (CwiseGrid.update (CwiseGrid.Build cwise it m0)) →
  pt = CwiseGrid.Matrix (CwiseGrid.rows m0) (CwiseGrid.cols m0)
         (((λ i, CwiseGrid.at_ (cwise !!! i) (idx !!! i)) <$> seq 0 r)
          ++ drop r (CwiseGrid.coeffs m0)).
Proof.
  intros r Hr0 Hin. set (c0 := CwiseGrid.Build cwise it m0) in *.
  destruct (update_frame c0 Hr0) as (F1 & F2 & F3 & F4 & F5).
  cbn [c0 CwiseGrid.m_cur] in F1, F2, F3, F4, F5. fold r in F4, F5.
  unfold CwiseGrid.traverse_indexed in Hin.
  set (fuel := box_size (CwiseGrid.m_iter (CwiseGrid.update c0))) in Hin.
  destruct (cwise_reachable d fuel (CwiseGrid.update c0) idx pt) as [Hrows Hco];
    [by rewrite F1, F3|rewrite F1; exact F5|exact Hin|].
  destruct (cwise_emitted_frame d fuel (CwiseGrid.update c0) idx pt)
    as (Hcols & Hlen & Hdrop); [by rewrite F1, F3|exact Hin|].
  rewrite F1 in Hrows, Hco, Hdrop. fold r in Hco, Hdrop.
  rewrite F2 in Hcols. rewrite F3 in Hlen. rewrite F4 in Hdrop.
  destruct pt as [pr pc pco]. cbn [CwiseGrid.rows CwiseGrid.cols CwiseGrid.coeffs] in *.
  rewrite Hrows, Hcols. f_equal.
  rewrite <- (take_drop r pco), Hdrop. f_equal.
  apply list_eq. intros i. destruct (decide (i < r)%nat) as [Hi|Hi].
  - rewrite lookup_take_lt by done. rewrite (Hco i Hi).
    by rewrite list_lookup_fmap, lookup_seq_lt.
  - rewrite lookup_take_ge by lia. symmetry. apply lookup_ge_None.
    rewrite length_fmap, length_seq. lia.
Qed.

End CwisePoints.



(** X20.  When the first array of the container has a single row, the
    current point is an [n]-by-1 column and every emitted point holds in
    each coefficient [i] the entry of the [i]-th array at the tensor
    index: nothing of the unset storage is left in it. *)
Theorem cwise_point_column {T : Type} `{Inhabited T} d
    (front : CwiseGrid.gsMatrix T) rest uninit :
  dim_ok d (S (length rest)) →
  Forall (λ m, (CwiseGrid.cols m = 1 ∨ CwiseGrid.rows m = 1) ∧
               1 ≤ CwiseGrid.rows m) (front :: rest) →
  CwiseGrid.rows front = 1 →
  ∃ c, CwiseGrid.make (front :: rest) uninit = Some c ∧
    ∀ idx pt, (idx, pt) ∈ CwiseGrid.traverse_indexed d c →
      pt = CwiseGrid.Matrix (Z.of_nat (S (length rest))) 1
             ((λ i, CwiseGrid.at_ ((front :: rest) !!! i) (idx !!! i))
                <$> seq 0 (S (length rest))).
Proof.
  intros Hd Hall Hfront.
  destruct (cwise_make_Some (front :: rest) uninit) as [c Hmake]; [done|..].
  { eapply list.Forall_impl; [exact Hall|]. by intros m [? _]. }
  exists c. split; [done|].
  destruct (cwise_make_front _ _ _ _ Hmake) as (it & _ & ->).
  rewrite bool_decide_eq_true_2 by done.
  intros idx pt Hin. apply cwise_emitted_point in Hin.
  - cbn [CwiseGrid.rows CwiseGrid.cols CwiseGrid.coeffs] in Hin.
    rewrite Nat2Z.id in Hin. rewrite drop_ge in Hin
      by (rewrite length_fmap, length_seq; lia).
    by rewrite app_nil_r in Hin.
  - cbn [CwiseGrid.rows CwiseGrid.coeffs].
    rewrite length_fmap, length_seq. lia.
Qed.

Lemma cwise_point_column_witness :
  ∃ c, CwiseGrid.make [CwiseGrid.Matrix 1 2 [0#1; 10#1]%Q;
                       CwiseGrid.Matrix 3 1 [5#1; 6#1; 7#1]%Q]
         (λ _, (99#1)%Q) = Some c ∧
    ∀ idx pt, (idx, pt) ∈ CwiseGrid.traverse_indexed (-1) c →
      pt = CwiseGrid.Matrix (Z.of_nat 2) 1
             ((λ i, CwiseGrid.at_ ([CwiseGrid.Matrix 1 2 [0#1; 10#1]%Q;
                                    CwiseGrid.Matrix 3 1 [5#1; 6#1; 7#1]%Q] !!! i)
                      (idx !!! i)) <$> seq 0 2).
Proof.
  apply (cwise_point_column (-1) (CwiseGrid.Matrix 1 2 [0#1; 10#1]%Q)
           [CwiseGrid.Matrix 3 1 [5#1; 6#1; 7#1]%Q] (λ _, (99#1)%Q)).
  - by left.
  - repeat constructor; simpl; lia.
  - reflexivity.
Defined.

(** X21.  When the first array of the container has more than one row,
    the current point is a 1-by-[n] row, [update()] loops over its single
    row, and every emitted point holds the entry of the first array at the
    tensor index in coefficient 0 and the unset storage of the
    construction in all the others. *)
Theorem cwise_point_row {T : Type} `{Inhabited T} d
    (front : CwiseGrid.gsMatrix T) rest uninit :
  dim_ok d (S (length rest)) →
  Forall (λ m, (CwiseGrid.cols m = 1 ∨ CwiseGrid.rows m = 1) ∧
               1 ≤ CwiseGrid.rows m) (front :: rest) →
  CwiseGrid.rows front ≠ 1 →
  ∃ c, CwiseGrid.make (front :: rest) uninit = Some c ∧
    ∀ idx pt, (idx, pt) ∈ CwiseGrid.traverse_indexed d c →
      pt = CwiseGrid.Matrix 1 (Z.of_nat (S (length rest)))
             (CwiseGrid.at_ front (idx !!! 0%nat)
              :: (uninit <$> seq 1 (length rest))).
Proof.
  intros Hd Hall Hfront.
  destruct (cwise_make_Some (front :: rest) uninit) as [c Hmake]; [done|..].
  { eapply list.Forall_impl; [exact Hall|]. by intros m [? _]. }
  exists c. split; [done|].
  destruct (cwise_make_front _ _ _ _ Hmake) as (it & _ & ->).
  rewrite bool_decide_eq_false_2 by done.
  intros idx pt Hin. apply cwise_emitted_point in Hin.
  - exact Hin.
  - cbn [CwiseGrid.rows CwiseGrid.coeffs].
    rewrite length_fmap, length_seq. lia.
Qed.

Lemma cwise_point_row_witness :
  ∃ c, CwiseGrid.make [CwiseGrid.Matrix 2 1 [0#1; 10#1]%Q;
                       CwiseGrid.Matrix 3 1 [5#1; 6#1; 7#1]%Q]
         (λ _, (99#1)%Q) = Some c ∧
    ∀ idx pt, (idx, pt) ∈ CwiseGrid.traverse_indexed (-1) c →
      pt = CwiseGrid.Matrix 1 (Z.of_nat 2)
             (CwiseGrid.at_ (CwiseGrid.Matrix 2 1 [0#1; 10#1]%Q) (idx !!! 0%nat)
              :: ((λ _, (99#1)%Q) <$> seq 1 1)).
Proof.
  apply (cwise_point_row (-1) (CwiseGrid.Matrix 2 1 [0#1; 10#1]%Q)
           [CwiseGrid.Matrix 3 1 [5#1; 6#1; 7#1]%Q] (λ _, (99#1)%Q)).
  - by left.
  - repeat constructor; simpl; lia.
  - discriminate.
Defined.
